(** * MBTopEditors: the core of [checkmbeditors.py]

    A shallow embedding of the escaped-text decoder, the editor loader, the
    applied-edit aggregator, the ranker and the CSV writer, together with the
    properties the specification states about them.

    Conventions.
    - A Python [str] is a list of Unicode code points ([N]).
    - A Python [int] is a [Z].
    - Python code that can raise runs in the small error monad [py].
    - [editors] (a plain dict that is only looked up) is a [gmap Z str];
      [counts] (a dict whose iteration order is observed by the ranker) is an
      insertion-ordered association list. *)

From Stdlib Require Import ZArith NArith Lia Sorting.Sorted Sorting.Permutation.
From Stdlib Require Import DecimalString.
From stdpp Require Import base option list strings gmap.

Local Open Scope N_scope.

(** ** Characters and strings *)

Abbreviation char := N (only parsing).
Abbreviation str := (list N) (only parsing).

(** Reading a literal: the code points of an ASCII string. *)
Definition lit (s : string) : str :=
  map Ascii.N_of_ascii (String.list_ascii_of_string s).

Definition bs : char := 92.        (* backslash *)
Definition tab : char := 9.
Definition nl : char := 10.
Definition cr : char := 13.
Definition dquote : char := 34.
Definition comma : char := 44.

(** ** Exceptions *)

Inductive exn := IndexError | ValueError.

(** [Timeout] is not a Python outcome: it is what a fuelled loop of the model
    answers when its fuel is spent.  Every loop below is proved never to
    answer it. *)
Inductive py (A : Type) :=
  | Ok (a : A)
  | Raise (e : exn)
  | Timeout.
Arguments Ok {A} a.
Arguments Raise {A} e.
Arguments Timeout {A}.

#[global] Instance py_ret : MRet py := fun _ a => Ok a.
#[global] Instance py_bind : MBind py := fun _ _ f c =>
  match c with
  | Ok a => f a
  | Raise e => Raise e
  | Timeout => Timeout
  end.

(** [try: c  except Exception: h] *)
Definition try_except {A} (c : py A) (h : py A) : py A :=
  match c with
  | Raise _ => h
  | _ => c
  end.

(** [l[i]] for a non-negative index, on a string or a list. *)
Definition getitem {A} (l : list A) (i : nat) : py A :=
  match l !! i with
  | Some c => Ok c
  | None => Raise IndexError
  end.

(** [for x in l: st = f(st, x)], the loop over the lines of a file. *)
Fixpoint for_each {S A} (f : S -> A -> py S) (st : S) (l : list A) : py S :=
  match l with
  | [] => Ok st
  | x :: r => st' ← f st x; for_each f st' r
  end.

(** [chr(n)] *)
Definition chr (n : Z) : py char :=
  if ((0 <=? n) && (n <=? 1114111))%Z then Ok (Z.to_N n) else Raise ValueError.

(** ** What the program takes from the Python runtime

    Python's character database beyond ASCII and its integer parser are not
    part of the program.  [uni_decimal c] is the value of a non-ASCII decimal
    digit; [uni_digit c] tells the non-ASCII characters that [str.isdigit]
    accepts although they have no decimal value (superscripts and the like);
    [parse_int s] is [int(s)], with [None] for [ValueError]. *)
Class Python := {
  uni_decimal : char -> option N;
  uni_digit : char -> bool;
  parse_int : str -> option Z
}.

Definition decimal_value `{Python} (c : char) : option N :=
  if c <? 128 then
    if (48 <=? c) && (c <=? 57) then Some (c - 48) else None
  else uni_decimal c.

(** [c.isdigit()] *)
Definition isdigit `{Python} (c : char) : bool :=
  match decimal_value c with
  | Some _ => true
  | None => (128 <=? c) && uni_digit c
  end.

(** [int(s)] *)
Definition int_ `{Python} (s : str) : py Z :=
  match parse_int s with
  | Some z => Ok z
  | None => Raise ValueError
  end.

(** [int(s, base)] on a string made of [isdigit] characters only, which is
    the only way the decoder calls it: no sign, blank, underscore or prefix
    can occur. *)
Fixpoint int_acc `{Python} (base acc : Z) (s : str) : py Z :=
  match s with
  | [] => Ok acc
  | c :: r =>
      match decimal_value c with
      | Some v =>
          if (Z.of_N v <? base)%Z then int_acc base (acc * base + Z.of_N v) r
          else Raise ValueError
      | None => Raise ValueError
      end
  end.

Definition int_base `{Python} (s : str) (base : Z) : py Z :=
  match s with
  | [] => Raise ValueError
  | _ => int_acc base 0 s
  end.

(** ** The decoder, [unescape_pg] *)

Inductive flow :=
  | Continue (i : nat) (out : list str)
  | Break (out : list str).

(** The inner [for _ in range(2)] loop that extends [octs]. *)
Fixpoint take_digits `{Python} (n : nat) (s : str) (L i : nat) (octs : str)
  : py (nat * str) :=
  match n with
  | O => Ok (i, octs)
  | S n' =>
      if (i <? L)%nat then
        c ← getitem s i;
        if isdigit c then
          c' ← getitem s i;
          take_digits n' s L (i + 1)%nat (octs ++ [c'])
        else Ok (i, octs)
      else Ok (i, octs)
  end.

(** One iteration of [while i < L], entered with [i < L]. *)
Definition body `{Python} (s : str) (L i : nat) (out : list str) : py flow :=
  ch ← getitem s i;
  if negb (ch =? bs) then Ok (Continue (i + 1)%nat (out ++ [[ch]]))
  else
    let i := (i + 1)%nat in
    if (L <=? i)%nat then Ok (Break (out ++ [[bs]]))
    else
      nxt ← getitem s i;
      let i := (i + 1)%nat in
      if nxt =? 110 then Ok (Continue i (out ++ [[nl]]))
      else if nxt =? 114 then Ok (Continue i (out ++ [[cr]]))
      else if nxt =? 116 then Ok (Continue i (out ++ [[tab]]))
      else if nxt =? bs then Ok (Continue i (out ++ [[bs]]))
      else if isdigit nxt then
        '(i, octs) ← take_digits 2 s L i [nxt];
        piece ← try_except
                  (n ← int_base octs 8; c ← chr n; Ok [c])
                  (Ok (bs :: octs));
        Ok (Continue i (out ++ [piece]))
      else Ok (Continue i (out ++ [[nxt]])).

(** [while i < L: ...]; every iteration moves [i] forward, so [L] units of
    fuel are enough (lemma [while_decodes]). *)
Fixpoint while `{Python} (fuel : nat) (s : str) (L i : nat) (out : list str)
  : py (list str) :=
  if (i <? L)%nat then
    match fuel with
    | O => Timeout
    | S fuel' =>
        f ← body s L i out;
        match f with
        | Continue i' out' => while fuel' s L i' out'
        | Break out' => Ok out'
        end
    end
  else Ok out.

(** [unescape_pg(val)]; the inner [None] is Python's [None]. *)
Definition unescape_pg `{Python} (val : str) : py (option str) :=
  if decide (val = [bs; 78]) then Ok None
  else if negb (bool_decide (bs ∈ val)) then Ok (Some val)
  else
    let s := val in
    let L := length s in
    out ← while L s L 0%nat [];
    Ok (Some (concat out)).

(** *** The decoding rules as the specification words them *)

(** The run of at most [n] digits at the head of [l]. *)
Fixpoint digit_run `{Python} (n : nat) (l : str) : str :=
  match n, l with
  | S n', c :: r => if isdigit c then c :: digit_run n' r else []
  | _, _ => []
  end.

Definition octal_digit `{Python} (c : char) : option N :=
  match decimal_value c with
  | Some v => if v <? 8 then Some v else None
  | None => None
  end.

(** The number a digit run denotes in base 8, when every digit is octal;
    [octal_from] reads on from what the digits so far denote. *)
Definition octal_from `{Python} (a : option N) (d : str) : option N :=
  foldl (λ acc c, a ← acc; v ← octal_digit c; Some (a * 8 + v)) a d.

Definition octal_value `{Python} (d : str) : option N :=
  octal_from (Some 0) d.

(** What an escape made of the digit run [d] stands for. *)
Definition octal_escape `{Python} (d : str) : str :=
  match octal_value d with
  | Some v => [v]
  | None => bs :: d
  end.

Inductive decodes `{Python} : str -> str -> Prop :=
  | dec_end : decodes [] []
  | dec_copy c r o :
      c ≠ bs -> decodes r o -> decodes (c :: r) (c :: o)
  | dec_trailing : decodes [bs] [bs]
  | dec_n r o : decodes r o -> decodes (bs :: 110 :: r) (nl :: o)
  | dec_r r o : decodes r o -> decodes (bs :: 114 :: r) (cr :: o)
  | dec_t r o : decodes r o -> decodes (bs :: 116 :: r) (tab :: o)
  | dec_bs r o : decodes r o -> decodes (bs :: bs :: r) (bs :: o)
  | dec_digits d r o :
      d ≠ [] -> digit_run 3 (d ++ r) = d -> decodes r o ->
      decodes (bs :: d ++ r) (octal_escape d ++ o)
  | dec_other c r o :
      c ≠ 110 -> c ≠ 114 -> c ≠ 116 -> c ≠ bs -> isdigit c = false ->
      decodes r o -> decodes (bs :: c :: r) (c :: o).

(** ** Lines and fields *)

(** [line.rstrip("\n")] *)
Fixpoint rstrip_nl (s : str) : str :=
  match s with
  | [] => []
  | c :: r =>
      match rstrip_nl r with
      | [] => if c =? nl then [] else [c]
      | r' => c :: r'
      end
  end.

(** [s.split("\t")] *)
Fixpoint split_tab (s : str) : list str :=
  match s with
  | [] => [[]]
  | c :: r =>
      if c =? tab then [] :: split_tab r
      else
        match split_tab r with
        | f :: fs => (c :: f) :: fs
        | [] => [[c]]
        end
  end.

(** [x or d] for [x] a string or [None]. *)
Definition or_str (x : option str) (d : str) : str :=
  match x with
  | Some (c :: r) => c :: r
  | _ => d
  end.

(** [str(n)], also what an f-string does to an [int]. *)
Definition str_of_int (n : Z) : str :=
  lit (NilZero.string_of_int (Z.to_int n)).

(** ** The editor loader, [load_editors] *)

(** The condition of the [if] that opens the loop body:
    [not line or line[0] in ("-", "C")]. *)
Definition first_char_check (line : str) : py bool :=
  match line with
  | [] => Ok true
  | _ => c ← getitem line 0; Ok ((c =? 45) || (c =? 67))
  end.

(** After the first-character [if]: the rest of the loop body. *)
Definition load_fields `{Python} (eid_to_name : gmap Z str) (line : str)
  : py (gmap Z str) :=
  let parts := split_tab (rstrip_nl line) in
  if (length parts <? 2)%nat then Ok eid_to_name
  else
    r ← try_except (p0 ← getitem parts 0; eid ← int_ p0; Ok (Some eid))
                   (Ok None);
    match r with
    | None => Ok eid_to_name
    | Some eid =>
        p1 ← getitem parts 1;
        u ← unescape_pg p1;
        let name := or_str u [] in
        Ok (<[eid := name]> eid_to_name)
    end.

Definition load_line `{Python} (eid_to_name : gmap Z str) (line : str)
  : py (gmap Z str) :=
  b ← first_char_check line;
  _ ← (if (b : bool) then Ok tt else Ok tt);
  load_fields eid_to_name line.

Definition load_editors `{Python} (lines : list str) : py (gmap Z str) :=
  for_each load_line ∅ lines.

(** The loader with the first-character [if] deleted. *)
Definition load_editors_nocheck `{Python} (lines : list str)
  : py (gmap Z str) :=
  for_each load_fields ∅ lines.

(** What a line of the editor file contributes, in the words of the
    specification: at least two fields, the first one an integer; the name is
    the decoded second field, [None] and the empty string both giving the
    empty string. *)
Definition editor_entry `{Python} (line : str) : option (Z * str) :=
  match split_tab (rstrip_nl line) with
  | p0 :: p1 :: _ =>
      match parse_int p0 with
      | Some eid =>
          Some (eid,
                match unescape_pg p1 with
                | Ok (Some (c :: r)) => c :: r
                | _ => []
                end)
      | None => None
      end
  | _ => None
  end.

(** The name on the last line that carries the id [eid]. *)
Fixpoint last_name `{Python} (eid : Z) (lines : list str) : option str :=
  match lines with
  | [] => None
  | l :: r =>
      match last_name eid r with
      | Some n => Some n
      | None =>
          match editor_entry l with
          | Some (e, n) => if decide (e = eid) then Some n else None
          | None => None
          end
      end
  end.

(** ** The aggregator, [count_applied_edits] *)

Definition APPLIED_STATUS_CODE : Z := 2.

(** A dict with integer keys, in insertion order. *)
Abbreviation odict := (list (Z * Z)) (only parsing).

Fixpoint od_get (d : odict) (k : Z) : option Z :=
  match d with
  | [] => None
  | (k', v) :: r => if decide (k' = k) then Some v else od_get r k
  end.

(** [d[k] = v]: a key keeps its place, a new key goes last. *)
Fixpoint od_set (d : odict) (k v : Z) : odict :=
  match d with
  | [] => [(k, v)]
  | (k', v') :: r =>
      if decide (k' = k) then (k, v) :: r else (k', v') :: od_set r k v
  end.

(** [d[k]] on a [defaultdict(int)]: a missing key is first stored with 0. *)
Definition dd_getitem (d : odict) (k : Z) : Z * odict :=
  match od_get d k with
  | Some v => (v, d)
  | None => (0%Z, od_set d k 0%Z)
  end.

(** [d[k] += 1] on a [defaultdict(int)]. *)
Definition dd_incr (d : odict) (k : Z) : odict :=
  let '(v, d') := dd_getitem d k in od_set d' k (v + 1)%Z.

Definition count_line `{Python} (counts : odict) (line : str) : py odict :=
  let parts := split_tab (rstrip_nl line) in
  if (length parts <? 4)%nat then Ok counts
  else
    p1 ← getitem parts 1;
    eid_raw ← unescape_pg p1;
    p3 ← getitem parts 3;
    status_raw ← unescape_pg p3;
    match eid_raw, status_raw with
    | Some eid_raw, Some status_raw =>
        try_except
          (st ← int_ status_raw;
           if (st =? APPLIED_STATUS_CODE)%Z then
             k ← int_ eid_raw; Ok (dd_incr counts k)
           else Ok counts)
          (Ok counts)
    | _, _ => Ok counts
    end.

Definition count_applied_edits `{Python} (lines : list str) : py odict :=
  for_each count_line [] lines.

(** The editor id of a line that counts as an applied edit, if it is one:
    the conditions of [count_line], read off the specification. *)
Definition is_applied_line `{Python} (line : str) (k : Z) : Prop :=
  ∃ parts p1 p3 e st,
    parts = split_tab (rstrip_nl line) ∧ (4 ≤ length parts)%nat ∧
    parts !! 1%nat = Some p1 ∧ parts !! 3%nat = Some p3 ∧
    unescape_pg p1 = Ok (Some e) ∧ unescape_pg p3 = Ok (Some st) ∧
    parse_int e = Some k ∧ parse_int st = Some 2%Z.

(** The same as a function. *)
Definition decoded `{Python} (raw : option str) : option str :=
  match raw with
  | Some s => match unescape_pg s with Ok r => r | _ => None end
  | None => None
  end.

Definition applied_editor `{Python} (line : str) : option Z :=
  let parts := split_tab (rstrip_nl line) in
  if (length parts <? 4)%nat then None
  else
    match decoded (parts !! 1%nat), decoded (parts !! 3%nat) with
    | Some e, Some st =>
        match parse_int st with
        | Some v => if (v =? APPLIED_STATUS_CODE)%Z then parse_int e else None
        | None => None
        end
    | _, _ => None
    end.

(** What a line does to the counters, seen from its outcome. *)
Definition count_step `{Python} (counts : odict) (line : str) : odict :=
  match applied_editor line with
  | Some k => dd_incr counts k
  | None => counts
  end.

(** The ids of a list, each kept at its first occurrence only. *)
Fixpoint first_seen (seen ids : list Z) : list Z :=
  match ids with
  | [] => []
  | k :: r =>
      if bool_decide (k ∈ seen) then first_seen seen r
      else k :: first_seen (seen ++ [k]) r
  end.

(** The number of applied edits of [k] among [lines]. *)
Definition applied_count `{Python} (k : Z) (lines : list str) : Z :=
  Z.of_nat (length (filter (λ l, applied_editor l = Some k) lines)).

(** ** The ranker (the middle of [main]) *)

Definition row : Type := Z * str * Z.

Definition row_id (r : row) : Z := r.1.1.
Definition row_name (r : row) : str := r.1.2.
Definition row_count (r : row) : Z := r.2.

(** [f"(editor #{eid})"] *)
Definition placeholder (eid : Z) : str :=
  lit "(editor #" ++ str_of_int eid ++ lit ")".

(** [[(eid, editors.get(eid, ...), cnt) for eid, cnt in counts.items()]] *)
Definition rows_of (editors : gmap Z str) (counts : odict) : list row :=
  (λ '(eid, cnt), (eid, default (placeholder eid) (editors !! eid), cnt))
    <$> counts.

(** [rows.sort(key=lambda x: x[2], reverse=True)]: Python's sort is stable,
    also under [reverse=True].  A row is put in front of the first row whose
    count is not larger than its own. *)
Fixpoint insert_row (x : row) (l : list row) : list row :=
  match l with
  | [] => [x]
  | y :: r =>
      if (row_count x <? row_count y)%Z then y :: insert_row x r
      else x :: y :: r
  end.

Definition sort_rows (l : list row) : list row := foldr insert_row [] l.

(** The order the specification asks for: larger counts first. *)
Definition by_count_desc (a b : row) : Prop := (row_count b ≤ row_count a)%Z.

(** [top = rows[:500]] *)
Definition top (editors : gmap Z str) (counts : odict) : list row :=
  take 500 (sort_rows (rows_of editors counts)).

(** [enumerate(l, start)] *)
Fixpoint enumerate {A} (start : Z) (l : list A) : list (Z * A) :=
  match l with
  | [] => []
  | x :: r => (start, x) :: enumerate (start + 1) r
  end.

(** The ranked rows: [enumerate(top, start=1)], as [write_csv] and the
    preview number them. *)
Definition ranked (editors : gmap Z str) (counts : odict) : list (Z * row) :=
  enumerate 1 (top editors counts).

(** ** The CSV writer, [write_csv] *)

(** [s.replace(old, new)] for a one-character [old]. *)
Definition replace_char (old : char) (new : str) (s : str) : str :=
  flat_map (λ c, if c =? old then new else [c]) s.

Definition csv_header : str :=
  lit "rank,editor_id,editor_name,applied_edit_count" ++ [nl].

(** One turn of the [for] loop; [f] is what has been written so far. *)
Definition write_row (f : str) (ir : Z * row) : str :=
  let '(i, (eid, name, cnt)) := ir in
  let safe := replace_char dquote [dquote; dquote] (or_str (Some name) []) in
  let safe :=
    if existsb (λ ch, bool_decide (ch ∈ safe)) [comma; nl; cr; dquote]
    then [dquote] ++ safe ++ [dquote]
    else safe in
  f ++ (str_of_int i ++ [comma] ++ str_of_int eid ++ [comma] ++ safe
          ++ [comma] ++ str_of_int cnt ++ [nl]).

(** The text of the file once it is closed. *)
Definition write_csv (rows : list row) : str :=
  foldl write_row csv_header (enumerate 1 rows).

(** *** The format as the specification words it *)

Definition needs_quotes (name : str) : bool :=
  existsb (λ c, (c =? comma) || (c =? dquote) || (c =? nl) || (c =? cr)) name.

Definition double_quotes (name : str) : str :=
  flat_map (λ c, if c =? dquote then [dquote; dquote] else [c]) name.

Definition csv_field (name : str) : str :=
  if needs_quotes name then [dquote] ++ double_quotes name ++ [dquote]
  else name.

Definition csv_line (rank : Z) (r : row) : str :=
  str_of_int rank ++ [comma] ++ str_of_int (row_id r) ++ [comma]
    ++ csv_field (row_name r) ++ [comma] ++ str_of_int (row_count r) ++ [nl].

Definition csv_text (rows : list row) : str :=
  csv_header ++ concat (imap (λ i r, csv_line (Z.of_nat i + 1) r) rows).

(** ** The file on disk *)

(** The UTF-8 encoding [open(..., encoding="utf-8")] applies to what is
    written.  Only Unicode scalar values can be encoded. *)
Definition utf8_char (c : char) : py (list N) :=
  if c <? 128 then Ok [c]
  else if c <? 2048 then Ok [192 + c / 64; 128 + c mod 64]
  else if c <? 65536 then
    if (55296 <=? c) && (c <=? 57343) then Raise ValueError
    else Ok [224 + c / 4096; 128 + (c / 64) mod 64; 128 + c mod 64]
  else if c <? 1114112 then
    Ok [240 + c / 262144; 128 + (c / 4096) mod 64; 128 + (c / 64) mod 64;
        128 + c mod 64]
  else Raise ValueError.

Fixpoint utf8_encode (s : str) : py (list N) :=
  match s with
  | [] => Ok []
  | c :: r => b ← utf8_char c; bs' ← utf8_encode r; Ok (b ++ bs')
  end.

(** ** The pipeline, [main]

    The two files reach [main] as the lines the runtime reads from them;
    finding and unpacking them is outside the core.  The result is the
    content of [top_editors.csv]. *)
Definition main_text `{Python} (editor_lines edit_lines : list str) : py str :=
  editors ← load_editors editor_lines;
  counts ← count_applied_edits edit_lines;
  Ok (write_csv (top editors counts)).

Definition main `{Python} (editor_lines edit_lines : list str)
  : py (list N) :=
  text ← main_text editor_lines edit_lines;
  utf8_encode text.

(** ** Runs of the core

    [rows.sort(key=..., reverse=True)] is a library routine.  What Python
    promises of its result, whatever the algorithm: the rows stand in the
    order asked for, larger counts first, and rows of one count keep the
    order they had ([list.sort] is stable, also under [reverse=True]).
    [sort_rows] is one sort that keeps the promise. *)
Definition stable_sort_of (rows result : list row) : Prop :=
  StronglySorted by_count_desc result
  ∧ ∀ c, filter (λ r, row_count r = c) result
         = filter (λ r, row_count r = c) rows.

(** A run of the core of [main]: the two files are loaded and counted, the
    rows are sorted by a sort that keeps the promise, cut to 500, written as
    CSV and encoded.  [written] is what the run hands to the file. *)
Definition core_run `{Python} (editor_lines edit_lines : list str)
    (written : py (list N)) : Prop :=
  ∃ editors counts rows,
    load_editors editor_lines = Ok editors
    ∧ count_applied_edits edit_lines = Ok counts
    ∧ stable_sort_of (rows_of editors counts) rows
    ∧ written = utf8_encode (write_csv (take 500 rows)).

(** ** The entry point, [if __name__ == "__main__"] *)

Record world := {
  stdout : str;
  stderr : str;
  main_calls : list str
}.

Inductive outcome :=
  | Exited (code : Z) (w : world)
  | Returned (w : world).

(** [print(s)]: text and a newline on the standard output. *)
Definition print_ (s : str) (w : world) : world :=
  {| stdout := stdout w ++ s ++ [nl];
     stderr := stderr w;
     main_calls := main_calls w |}.

(** The call [main(os.path.abspath(arg))], recorded, not run. *)
Definition call_main (arg : str) (w : world) : world :=
  {| stdout := stdout w; stderr := stderr w;
     main_calls := main_calls w ++ [arg] |}.

Definition usage : str := lit "Usage: python mb_top_editors_overall.py <folder>".

Definition dunder_main (argv : list str) (w : world) : outcome :=
  if (length argv <? 2)%nat then
    let w := print_ usage w in
    Exited 1 w
  else
    match argv !! 1%nat with
    | Some arg => Returned (call_main arg w)
    | None => Returned w
    end.

Definition fresh_world : world :=
  {| stdout := []; stderr := []; main_calls := [] |}.

(** ** A runtime to run the model on

    Plain ASCII: no digits beyond [0-9], and [int] reads an optional sign
    followed by ASCII digits. *)
Fixpoint ascii_digits (acc : Z) (s : str) : option Z :=
  match s with
  | [] => Some acc
  | c :: r =>
      if (48 <=? c) && (c <=? 57)
      then ascii_digits (acc * 10 + Z.of_N (c - 48)) r
      else None
  end.

Definition ascii_int (s : str) : option Z :=
  match s with
  | [] => None
  | c :: r =>
      if c =? 45 then
        match r with [] => None | _ => Z.opp <$> ascii_digits 0 r end
      else if c =? 43 then
        match r with [] => None | _ => ascii_digits 0 r end
      else ascii_digits 0 s
  end.

Definition ascii_python : Python :=
  {| uni_decimal := λ _, None; uni_digit := λ _, false;
     parse_int := ascii_int |}.

(** ** Quantities used to state further properties *)

(** [sum(counts.values())] *)
Definition od_total (d : odict) : Z := foldr (λ kv acc, (kv.2 + acc)%Z) 0%Z d.

(** A code point that is a Unicode scalar value, which is all a file read
    with [errors="replace"] can hold. *)
Definition scalar (c : char) : bool :=
  (c <? 55296) || ((57343 <? c) && (c <? 1114112)).

Definition scalar_text (s : str) : Prop := Forall (λ c, scalar c = true) s.

(** ** The file system and the archives

    What the program asks of [os], [glob] and [tarfile] is not part of it and
    is taken as given: [fs] is the type of the states of the file system, and
    a call that can raise answers [None] when it does. *)
Class OS := {
  fs : Type;
  member : Type;                                  (* a [TarInfo] *)
  member_name : member -> str;                    (* [m.name] *)
  path_join : str -> str -> str;                  (* [os.path.join(a, b)] *)
  basename : str -> str;                          (* [os.path.basename(p)] *)
  isfile : fs -> str -> bool;                     (* [os.path.isfile(p)] *)
  glob : fs -> str -> list str;                   (* [glob.glob(pattern)] *)
  makedirs : fs -> str -> option fs;   (* [os.makedirs(p, exist_ok=True)] *)
  getmembers : fs -> str -> option (list member);
                    (* [tarfile.open(p, "r:bz2")] and [tf.getmembers()] *)
  extract : fs -> str -> member -> str -> option fs;
                    (* [tf.extract(m, path=target_root)], [tf] opened on [p] *)
  read_lines : fs -> str -> option (list str);
                    (* the lines of [open(p, "r", encoding="utf-8",
                       errors="replace")] *)
  write_bytes : fs -> str -> list N -> option fs;
                    (* [open(p, "w", ...)] and what is written, as bytes *)
  printable : str -> bool
                    (* whether the console can encode a text *)
}.

(** How a call ends: with a value, with [sys.exit(msg)], or with an exception
    that nothing catches.  The first two carry the state of the file system;
    all carry the lines printed so far. *)
Inductive result `{OS} (A : Type) :=
  | Val (a : A) (st : fs) (out : list str)
  | Exit (msg : str) (st : fs) (out : list str)
  | Crash (out : list str).
Arguments Val {_ A} a st out.
Arguments Exit {_ A} msg st out.
Arguments Crash {_ A} out.

Definition io `{OS} (A : Type) : Type := fs -> list str -> result A.

#[global] Instance io_ret `{OS} : MRet io := fun _ a st out => Val a st out.
#[global] Instance io_bind `{OS} : MBind io := fun _ _ f c st out =>
  match c st out with
  | Val a st' out' => f a st' out'
  | Exit msg st' out' => Exit msg st' out'
  | Crash out' => Crash out'
  end.

(** [print(s)]: it raises when the console cannot encode [s]. *)
Definition print_line `{OS} (s : str) : io unit :=
  fun st out => if printable s then Val tt st (out ++ [s]) else Crash out.

(** [sys.exit(msg)] *)
Definition sys_exit `{OS} {A} (msg : str) : io A :=
  fun st out => Exit msg st out.

(** A call that reads the file system. *)
Definition ask `{OS} {A} (f : fs -> A) : io A :=
  fun st out => Val (f st) st out.

(** A call that reads the file system and can raise. *)
Definition ask_or_raise `{OS} {A} (f : fs -> option A) : io A :=
  fun st out =>
    match f st with
    | Some a => Val a st out
    | None => Crash out
    end.

(** A call that changes the file system and can raise. *)
Definition change `{OS} (f : fs -> option fs) : io unit :=
  fun st out =>
    match f st with
    | Some st' => Val tt st' out
    | None => Crash out
    end.

(** [for x in l: ...] where the body can exit or raise. *)
Fixpoint io_for `{OS} {A} (l : list A) (body : A -> io unit) : io unit :=
  match l with
  | [] => mret tt
  | x :: r => _ ← body x; io_for r body
  end.

(** *** Strings in order *)

(** [a < b] on strings: by code points, a proper prefix first. *)
Fixpoint str_ltb (a b : str) : bool :=
  match a, b with
  | _, [] => false
  | [], _ :: _ => true
  | x :: a', y :: b' =>
      if x <? y then true else if y <? x then false else str_ltb a' b'
  end.

(** [sorted(l)] on strings: stable, an element going in front of the first
    one that is larger. *)
Fixpoint insert_str (x : str) (l : list str) : list str :=
  match l with
  | [] => [x]
  | y :: r => if str_ltb y x then y :: insert_str x r else x :: y :: r
  end.

Definition sorted (l : list str) : list str := foldr insert_str [] l.

(** [s.startswith(p)] and [s.endswith(p)] *)
Fixpoint startswith (s p : str) : bool :=
  match p, s with
  | [], _ => true
  | _ :: _, [] => false
  | y :: p', x :: s' => (x =? y) && startswith s' p'
  end.

Definition endswith (s p : str) : bool := startswith (reverse s) (reverse p).

(** ** [_find_tar] *)

Definition _find_tar `{OS} (base_folder prefix : str) : io (option str) :=
  let pattern := path_join base_folder (prefix ++ lit "*.tar.bz2") in
  matches ← ask (fun st => sorted (glob st pattern));
  mret (match matches with
        | m :: _ => Some m
        | [] => None
        end).

(** ** [_extract_members] *)

(** A dict with string keys, in insertion order. *)
Fixpoint sd_get {V} (d : list (str * V)) (k : str) : option V :=
  match d with
  | [] => None
  | (k', v) :: r => if decide (k' = k) then Some v else sd_get r k
  end.

Fixpoint sd_set {V} (d : list (str * V)) (k : str) (v : V) : list (str * V) :=
  match d with
  | [] => [(k, v)]
  | (k', v') :: r =>
      if decide (k' = k) then (k, v) :: r else (k', v') :: sd_set r k v
  end.

(** [{m.name: m for m in members}], one member at a time. *)
Definition by_name_step `{OS} (d : list (str * member)) (m : member)
  : list (str * member) := sd_set d (member_name m) m.

Definition members_by_name `{OS} (members : list member)
  : list (str * member) := foldl by_name_step [] members.

(** The member taken for a wanted name: the one of that very name, or else
    the first one whose name ends with it. *)
Definition choose_member `{OS} (by_name : list (str * member)) (name : str)
  : option member :=
  match sd_get by_name name with
  | Some m => Some m
  | None =>
      match List.find (fun c => endswith c.1 name) by_name with
      | Some (_, cand) => Some cand
      | None => None
      end
  end.

(** The body of [for name in wanted]. *)
Definition extract_wanted `{OS} (tar_path target_root : str)
    (by_name : list (str * member)) (name : str) : io unit :=
  match choose_member by_name name with
  | None =>
      print_line (lit "  ! Warning: member " ++ name ++ lit " not found in "
                    ++ tar_path)
  | Some m =>
      _ ← print_line (lit "  - " ++ member_name m);
      change (fun st => extract st tar_path m target_root)
  end.

Definition _extract_members `{OS} (tar_path target_root : str)
    (wanted : list str) : io unit :=
  _ ← print_line (lit "Extracting from " ++ basename tar_path ++ lit " ...");
  _ ← change (fun st => makedirs st target_root);
  members ← ask_or_raise (fun st => getmembers st tar_path);
  let by_name := members_by_name members in
  io_for wanted (extract_wanted tar_path target_root by_name).

(** ** [ensure_required_files] *)

(** [not tar_path] *)
Definition no_path (p : option str) : bool :=
  match p with
  | Some (_ :: _) => false
  | _ => true
  end.

Definition ensure_required_files `{OS} (folder : str) : io (str * str) :=
  let editor_dir := path_join (path_join folder (lit "mbdump-editor"))
                              (lit "mbdump") in
  let edit_dir := path_join (path_join folder (lit "mbdump-edit"))
                            (lit "mbdump") in
  let editor_file := path_join editor_dir (lit "editor_sanitised") in
  san ← ask (fun st => isfile st editor_file);
  let editor_file :=
    if negb san then path_join editor_dir (lit "editor") else editor_file in
  let edit_file := path_join edit_dir (lit "edit") in
  have_editor ← ask (fun st => isfile st editor_file);
  editor_file ←
    (if negb have_editor then
       tar_path ← _find_tar folder (lit "mbdump-editor");
       if no_path tar_path then
         sys_exit (lit "Missing editor file and mbdump-editor.tar.bz2."
                     ++ [nl] ++ lit "Expected either:" ++ [nl]
                     ++ lit "  " ++ editor_file ++ [nl]
                     ++ lit "or a tarball like:" ++ [nl]
                     ++ lit "  "
                     ++ path_join folder (lit "mbdump-editor.tar.bz2"))
       else
         _ ← _extract_members (default [] tar_path)
               (path_join folder (lit "mbdump-editor"))
               [lit "mbdump/editor_sanitised"; lit "mbdump/editor"];
         let editor_file := path_join editor_dir (lit "editor_sanitised") in
         san ← ask (fun st => isfile st editor_file);
         mret (if negb san then path_join editor_dir (lit "editor")
               else editor_file)
     else mret editor_file);
  have_edit ← ask (fun st => isfile st edit_file);
  edit_file ←
    (if negb have_edit then
       tar_path ← _find_tar folder (lit "mbdump-edit");
       if no_path tar_path then
         sys_exit (lit "Missing edit file and mbdump-edit.tar.bz2."
                     ++ [nl] ++ lit "Expected either:" ++ [nl]
                     ++ lit "  " ++ edit_file ++ [nl]
                     ++ lit "or a tarball like:" ++ [nl]
                     ++ lit "  "
                     ++ path_join folder (lit "mbdump-edit.tar.bz2"))
       else
         _ ← _extract_members (default [] tar_path)
               (path_join folder (lit "mbdump-edit"))
               [lit "mbdump/edit"; lit "mbdump/edit_data"];
         mret (path_join edit_dir (lit "edit"))
     else mret edit_file);
  ok_editor ← ask (fun st => isfile st editor_file);
  ok_edit ← (if negb ok_editor then mret true
             else ask (fun st => isfile st edit_file));
  if negb ok_editor || negb ok_edit then
    sys_exit (lit "Missing required files even after extraction." ++ [nl]
                ++ lit "editor_file: " ++ editor_file ++ [nl]
                ++ lit "edit_file:   " ++ edit_file)
  else mret (editor_file, edit_file).

(** The three paths [ensure_required_files] looks at. *)
Definition sanitised_path `{OS} (folder : str) : str :=
  path_join (path_join (path_join folder (lit "mbdump-editor")) (lit "mbdump"))
            (lit "editor_sanitised").

Definition editor_path `{OS} (folder : str) : str :=
  path_join (path_join (path_join folder (lit "mbdump-editor")) (lit "mbdump"))
            (lit "editor").

Definition edit_path `{OS} (folder : str) : str :=
  path_join (path_join (path_join folder (lit "mbdump-edit")) (lit "mbdump"))
            (lit "edit").

(** ** [main], with its files and its console *)

(** [f"{n:,}"] for an integer: the digits in groups of three. *)
Fixpoint group3 (rev_digits : str) (k : nat) : str :=
  match rev_digits with
  | [] => []
  | c :: r =>
      match k with
      | O => comma :: c :: group3 r 2
      | S k' => c :: group3 r k'
      end
  end.

Definition format_thousands (n : Z) : str :=
  let digits := str_of_int (Z.abs n) in
  let grouped :=
    match reverse digits with
    | [] => []
    | c :: r => reverse (c :: group3 r 2)
    end in
  if (n <? 0)%Z then 45 :: grouped else grouped.

(** [f"{i:>2}"] *)
Definition pad2 (i : Z) : str :=
  let s := str_of_int i in
  replicate (2 - length s) 32 ++ s.

(** One line of the preview. *)
Definition preview_line (ir : Z * row) : str :=
  let '(i, (eid, name, cnt)) := ir in
  pad2 i ++ lit ". " ++ name ++ lit " (id " ++ str_of_int eid ++ lit ") "
    ++ [8212] ++ lit " " ++ format_thousands cnt ++ lit " applied edits".

(** A step of the pure core inside [main]: not reached by [Timeout], and an
    exception would end the program. *)
Definition run_py `{OS} {A} (c : py A) : io A :=
  fun st out =>
    match c with
    | Ok a => Val a st out
    | _ => Crash out
    end.

Definition main_io `{OS} `{Python} (folder : str) : io unit :=
  '(editor_file, edit_file) ← ensure_required_files folder;
  _ ← print_line (lit "Reading editors: " ++ editor_file);
  editor_lines ← ask_or_raise (fun st => read_lines st editor_file);
  editors ← run_py (load_editors editor_lines);
  _ ← print_line (lit "Loaded "
                    ++ format_thousands (Z.of_nat (size editors))
                    ++ lit " editors.");
  _ ← print_line (lit "Counting *applied* edits: " ++ edit_file);
  edit_lines ← ask_or_raise (fun st => read_lines st edit_file);
  counts ← run_py (count_applied_edits edit_lines);
  _ ← print_line (lit "Counted applied edits for "
                    ++ format_thousands (Z.of_nat (length counts))
                    ++ lit " editors.");
  let rows := rows_of editors counts in
  let rows := sort_rows rows in
  let top := take 500 rows in
  let out_csv := path_join folder (lit "top_editors.csv") in
  bytes ← run_py (utf8_encode (write_csv top));
  _ ← change (fun st => write_bytes st out_csv bytes);
  _ ← print_line ([nl; 9989] ++ lit " Done. Wrote "
                    ++ str_of_int (Z.of_nat (length top))
                    ++ lit " rows to:" ++ [nl] ++ lit "  " ++ out_csv);
  _ ← print_line ([nl] ++ lit "Top 10 preview:");
  io_for (enumerate 1 (take 10 top)) (fun ir => print_line (preview_line ir)).

(** ** A file system to run the model on

    The regular files that exist, and the archives with the names of their
    members.  A pattern is read as [<prefix>*<suffix>]. *)
Record toy_fs := {
  toy_files : list str;
  toy_archives : list (str * list str)
}.

Definition toy_join (a b : str) : str := a ++ [47] ++ b.

Fixpoint before_star (p : str) : str :=
  match p with
  | [] => []
  | c :: r => if c =? 42 then [] else c :: before_star r
  end.

Fixpoint after_star (p : str) : str :=
  match p with
  | [] => []
  | c :: r => if c =? 42 then r else after_star r
  end.

Definition toy_glob (st : toy_fs) (pattern : str) : list str :=
  List.filter
    (fun a => startswith a (before_star pattern)
              && endswith a (after_star pattern)
              && (length (before_star pattern) + length (after_star pattern)
                  <=? length a)%nat)
    (toy_archives st).*1.

Definition toy_members (st : toy_fs) (p : str) : option (list str) :=
  match List.find (fun a => bool_decide (a.1 = p)) (toy_archives st) with
  | Some (_, ms) => Some ms
  | None => None
  end.

Definition toy_add (st : toy_fs) (p : str) : toy_fs :=
  {| toy_files := toy_files st ++ [p]; toy_archives := toy_archives st |}.

Definition toy_os : OS :=
  {| fs := toy_fs;
     member := str;
     member_name := fun m => m;
     path_join := toy_join;
     basename := fun p => p;
     isfile := fun st p => bool_decide (p ∈ toy_files st);
     glob := toy_glob;
     makedirs := fun st _ => Some st;
     getmembers := toy_members;
     extract := fun st _ m target => Some (toy_add st (toy_join target m));
     read_lines := fun _ _ => Some [];
     write_bytes := fun st p _ => Some (toy_add st p);
     printable := fun _ => true |}.

(** A folder [d] that holds the two archives and nothing unpacked. *)
Definition toy_packed : toy_fs :=
  {| toy_files := [];
     toy_archives :=
       [(lit "d/mbdump-editor.tar.bz2",
         [lit "mbdump/editor"; lit "mbdump/editor_language"]);
        (lit "d/mbdump-edit.tar.bz2",
         [lit "mbdump/edit"; lit "mbdump/edit_data"])] |}.

(** The same folder with the two files unpacked, and an empty one. *)
Definition toy_unpacked : toy_fs :=
  {| toy_files := [lit "d/mbdump-editor/mbdump/editor";
                   lit "d/mbdump-edit/mbdump/edit"];
     toy_archives := [] |}.

Definition toy_empty : toy_fs := {| toy_files := []; toy_archives := [] |}.

(** * Properties *)

Ltac py_simpl := unfold mbind, py_bind, mret, py_ret in *; simpl in *.

(** ** The decoder *)

Section DecoderFacts.
Context `{Python}.

Lemma getitem_lookup {A} (l : list A) (i : nat) (x : A) :
  l !! i = Some x -> getitem l i = Ok x.
Proof. intros E. unfold getitem. now rewrite E. Qed.

Lemma isdigit_ascii (c : char) :
  c < 128 -> isdigit c = (48 <=? c) && (c <=? 57).
Proof.
  intros Hc. unfold isdigit, decimal_value.
  assert ((c <? 128) = true) as -> by now apply N.ltb_lt.
  destruct ((48 <=? c) && (c <=? 57)) eqn:E; [done|].
  replace (128 <=? c) with false; [done|].
  symmetry. now apply N.leb_gt.
Qed.

Lemma isdigit_not_letter (c : char) :
  isdigit c = true -> c ≠ 110 ∧ c ≠ 114 ∧ c ≠ 116 ∧ c ≠ bs ∧ c ≠ 78.
Proof.
  intros D. repeat split; intros ->; rewrite isdigit_ascii in D by done;
    discriminate D.
Qed.

Lemma digit_run_split (n : nat) (l : str) :
  l = digit_run n l ++ drop (length (digit_run n l)) l.
Proof.
  revert l. induction n as [|n IH]; intros [|c r]; simpl; try done.
  destruct (isdigit c); simpl; [|done]. f_equal. apply IH.
Qed.

Lemma digit_run_length (n : nat) (l : str) :
  (length (digit_run n l) ≤ n)%nat ∧ (length (digit_run n l) ≤ length l)%nat.
Proof.
  revert l. induction n as [|n IH]; intros [|c r]; simpl; try lia.
  destruct (isdigit c); simpl; [|lia]. specialize (IH r). lia.
Qed.

Lemma take_digits_run (n : nat) (s : str) (i : nat) (octs : str) :
  take_digits n s (length s) i octs
  = Ok ((i + length (digit_run n (drop i s)))%nat,
        octs ++ digit_run n (drop i s)).
Proof.
  revert i octs. induction n as [|n IH]; intros i octs.
  - simpl. destruct (drop i s); simpl; now rewrite Nat.add_0_r, app_nil_r.
  - cbn [take_digits]. destruct (Nat.ltb_spec i (length s)) as [Hi|Hi].
    + destruct (lookup_lt_is_Some_2 s i Hi) as [c Hc].
      rewrite (getitem_lookup _ _ _ Hc). rewrite (drop_S _ _ _ Hc).
      py_simpl. destruct (isdigit c).
      * rewrite IH. simpl. rewrite <- app_assoc. simpl.
        replace (i + 1)%nat with (S i) by lia. do 2 f_equal. lia.
      * simpl. now rewrite Nat.add_0_r, app_nil_r.
    + rewrite drop_ge by lia. simpl. now rewrite Nat.add_0_r, app_nil_r.
Qed.

Lemma octal_from_None (d : str) : octal_from None d = None.
Proof. induction d as [|c d IH]; simpl; [done|apply IH]. Qed.

Lemma octal_from_cons (a : N) (c : char) (d : str) :
  octal_from (Some a) (c :: d)
  = match octal_digit c with
    | Some v => octal_from (Some (a * 8 + v)) d
    | None => None
    end.
Proof.
  unfold octal_from at 1. simpl.
  destruct (octal_digit c); simpl; [done|apply octal_from_None].
Qed.

Lemma int_acc_octal (d : str) (a : N) :
  int_acc 8 (Z.of_N a) d
  = match octal_from (Some a) d with
    | Some v => Ok (Z.of_N v)
    | None => Raise ValueError
    end.
Proof.
  revert a. induction d as [|c d IH]; intros a; [done|].
  rewrite octal_from_cons. simpl. unfold octal_digit.
  destruct (decimal_value c) as [v|]; [|done].
  destruct (N.ltb_spec v 8) as [Hv|Hv].
  - replace (Z.of_N v <? 8)%Z with true by (symmetry; apply Z.ltb_lt; lia).
    replace (Z.of_N a * 8 + Z.of_N v)%Z with (Z.of_N (a * 8 + v)) by lia.
    apply IH.
  - replace (Z.of_N v <? 8)%Z with false by (symmetry; apply Z.ltb_ge; lia).
    done.
Qed.

Lemma octal_from_bound (d : str) (a v : N) :
  octal_from (Some a) d = Some v -> v < (a + 1) * 8 ^ N.of_nat (length d).
Proof.
  revert a. induction d as [|c d IH]; intros a.
  - simpl. intros [= ->]. simpl. lia.
  - rewrite octal_from_cons. unfold octal_digit.
    destruct (decimal_value c) as [w|]; [|done].
    destruct (N.ltb_spec w 8) as [Hw|Hw]; [|done].
    intros E. apply IH in E.
    cbn [length]. rewrite Nat2N.inj_succ, N.pow_succ_r'. nia.
Qed.

Lemma octal_value_bound (d : str) (v : N) :
  (length d ≤ 3)%nat -> octal_value d = Some v -> v < 512.
Proof.
  intros L E. apply octal_from_bound in E.
  assert (8 ^ N.of_nat (length d) <= 8 ^ 3) by (apply N.pow_le_mono_r; lia).
  change (8 ^ 3) with 512 in *. lia.
Qed.

(** The [try] block of the digit branch never escapes, and yields what the
    rule says. *)
Lemma try_octal (d : str) :
  d ≠ [] -> (length d ≤ 3)%nat ->
  try_except (n ← int_base d 8; c ← chr n; Ok [c]) (Ok (bs :: d))
  = Ok (octal_escape d).
Proof.
  intros Hd L. unfold int_base, octal_escape.
  destruct d as [|c d]; [done|].
  change 0%Z with (Z.of_N 0). rewrite int_acc_octal.
  change (octal_from (Some 0) (c :: d)) with (octal_value (c :: d)).
  destruct (octal_value (c :: d)) as [v|] eqn:E; [|done].
  apply octal_value_bound in E; [|done].
  unfold mbind, py_bind, chr.
  replace ((0 <=? Z.of_N v) && (Z.of_N v <=? 1114111))%Z with true.
  - simpl. now rewrite N2Z.id.
  - symmetry. apply andb_true_iff. split; apply Z.leb_le; lia.
Qed.

End DecoderFacts.

Section DecoderLoop.
Context `{Python}.

Local Arguments take_digits : simpl never.
Local Arguments int_base : simpl never.
Local Arguments digit_run : simpl never.
Local Arguments try_except : simpl never.
Local Arguments chr : simpl never.

Lemma body_copy (s : str) (i : nat) (out : list str) (ch : char) :
  s !! i = Some ch -> ch ≠ bs ->
  body s (length s) i out = Ok (Continue (i + 1)%nat (out ++ [[ch]])).
Proof.
  intros E Hch. unfold body. rewrite (getitem_lookup _ _ _ E).
  py_simpl. now apply N.eqb_neq in Hch as ->.
Qed.

Lemma body_trailing (s : str) (i : nat) (out : list str) :
  s !! i = Some bs -> (length s ≤ i + 1)%nat ->
  body s (length s) i out = Ok (Break (out ++ [[bs]])).
Proof.
  intros E Hl. unfold body. rewrite (getitem_lookup _ _ _ E).
  py_simpl. now apply Nat.leb_le in Hl as ->.
Qed.

(** The iteration on a backslash followed by a character that is neither a
    digit nor the backslash. *)
Lemma body_escape (s : str) (i : nat) (out : list str) (nxt : char) :
  s !! i = Some bs -> s !! (i + 1)%nat = Some nxt -> isdigit nxt = false ->
  body s (length s) i out
  = Ok (Continue (i + 2)%nat
          (out ++ [[if nxt =? 110 then nl else if nxt =? 114 then cr
                    else if nxt =? 116 then tab else nxt]])).
Proof.
  intros E E' D. unfold body. rewrite (getitem_lookup _ _ _ E).
  py_simpl. apply lookup_lt_Some in E' as Hl.
  replace (length s <=? i + 1)%nat with false
    by (symmetry; apply Nat.leb_gt; lia).
  rewrite (getitem_lookup _ _ _ E'). simpl. replace (i + 1 + 1)%nat with (i + 2)%nat by lia.
  destruct (nxt =? 110); [done|]. destruct (nxt =? 114); [done|].
  destruct (nxt =? 116); [done|].
  destruct (N.eqb_spec nxt bs) as [->|]; [done|].
  now rewrite D.
Qed.

Lemma digit_run_cons (n : nat) (c : char) (r : str) :
  digit_run (S n) (c :: r) = if isdigit c then c :: digit_run n r else [].
Proof. reflexivity. Qed.

(** The iteration on a backslash followed by a digit. *)
Lemma body_digits (s : str) (i : nat) (out : list str) (d : str) :
  s !! i = Some bs -> digit_run 3 (drop (S i) s) = d -> d ≠ [] ->
  body s (length s) i out
  = Ok (Continue (S i + length d)%nat (out ++ [octal_escape d])).
Proof.
  intros E Hd Hne.
  assert (length d ≤ 3)%nat as Hlen
    by (rewrite <- Hd; apply (digit_run_length 3)).
  destruct (drop (S i) s) as [|nxt rest] eqn:Er.
  { now subst d. }
  assert (s !! (i + 1)%nat = Some nxt) as E'.
  { replace (i + 1)%nat with (S i + 0)%nat by lia.
    rewrite <- lookup_drop, Er. done. }
  assert (drop (i + 1 + 1) s = rest) as Er'.
  { replace (i + 1 + 1)%nat with (S i + 1)%nat by lia.
    rewrite <- drop_drop, Er. done. }
  assert (isdigit nxt = true) as D.
  { destruct (isdigit nxt) eqn:D; [done|]. subst d. exfalso. apply Hne.
    rewrite digit_run_cons. now rewrite D. }
  assert (d = nxt :: digit_run 2 rest) as Hd'.
  { subst d. rewrite digit_run_cons. now rewrite D. }
  destruct (isdigit_not_letter _ D) as (N1 & N2 & N3 & N4 & _).
  apply lookup_lt_Some in E' as Hl.
  unfold body. rewrite (getitem_lookup _ _ _ E).
  unfold mbind, py_bind. simpl.
  replace (length s <=? i + 1)%nat with false
    by (symmetry; apply Nat.leb_gt; lia).
  rewrite (getitem_lookup _ _ _ E'). simpl.
  apply N.eqb_neq in N1 as ->. apply N.eqb_neq in N2 as ->.
  apply N.eqb_neq in N3 as ->. apply N.eqb_neq in N4 as ->.
  rewrite D, take_digits_run, Er'. simpl. rewrite <- Hd'.
  pose proof (try_octal d Hne Hlen) as T. unfold mbind, py_bind in T.
  rewrite T. do 2 f_equal.
  rewrite Hd'. simpl. lia.
Qed.

(** The loop, from any iteration on: it ends within [L - i] turns, without an
    exception, and what it appends obeys the decoding rules. *)
Lemma while_decodes (fuel : nat) (s : str) (i : nat) (out : list str) :
  (i ≤ length s)%nat -> (length s - i ≤ fuel)%nat ->
  ∃ o, while fuel s (length s) i out = Ok (out ++ o)
       ∧ decodes (drop i s) (concat o).
Proof.
  revert i out. induction fuel as [|fuel IH]; intros i out Hi Hf.
  - exists []. assert (i = length s) as -> by lia. simpl.
    rewrite Nat.ltb_irrefl, drop_all, app_nil_r. split; [done|constructor].
  - cbn [while]. destruct (Nat.ltb_spec i (length s)) as [Hlt|Hge].
    2:{ exists []. rewrite drop_ge, app_nil_r by lia.
        split; [done|constructor]. }
    destruct (lookup_lt_is_Some_2 s i Hlt) as [ch E].
    rewrite (drop_S _ _ _ E).
    destruct (decide (ch = bs)) as [->|Hch].
    2:{ rewrite (body_copy _ _ _ _ E Hch). py_simpl.
        destruct (IH (i + 1)%nat (out ++ [[ch]])) as (o & -> & Ho); [lia..|].
        exists ([ch] :: o). rewrite <- app_assoc. split; [done|].
        simpl. apply dec_copy; [done|].
        now replace (S i) with (i + 1)%nat by lia. }
    destruct (drop (S i) s) as [|nxt rest] eqn:Er.
    { assert (length s ≤ i + 1)%nat as Hl.
      { apply (f_equal length) in Er. rewrite length_drop in Er.
        simpl in Er. lia. }
      rewrite (body_trailing _ _ _ E Hl). py_simpl.
      exists [[bs]]. split; [done|]. apply dec_trailing. }
    assert (s !! (i + 1)%nat = Some nxt) as E'.
    { replace (i + 1)%nat with (S i + 0)%nat by lia.
      rewrite <- lookup_drop, Er. done. }
    assert (drop (i + 2) s = rest) as Er'.
    { replace (i + 2)%nat with (S i + 1)%nat by lia.
      rewrite <- drop_drop, Er. done. }
    apply lookup_lt_Some in E' as Hl.
    destruct (isdigit nxt) eqn:D.
    + pose (d := digit_run 3 (nxt :: rest)).
      assert (d ≠ []) as Hne by (unfold d; rewrite digit_run_cons; now rewrite D).
      assert (digit_run 3 (drop (S i) s) = d) as Hd by now rewrite Er.
      rewrite (body_digits _ _ _ _ E Hd Hne). py_simpl.
      pose proof (digit_run_split 3 (nxt :: rest)) as Sp. fold d in Sp.
      pose proof (digit_run_length 3 (nxt :: rest)) as [_ Ll]. fold d in Ll.
      simpl in Ll.
      assert (length (nxt :: rest) = length s - S i)%nat as Lr
        by (rewrite <- Er; apply length_drop).
      simpl in Lr.
      assert (drop (S (i + length d)) s = drop (length d) (nxt :: rest))
        as Htl.
      { rewrite <- Er, drop_drop. f_equal; lia. }
      destruct (IH (S (i + length d)) (out ++ [octal_escape d]))
        as (o & -> & Ho); [lia..|].
      exists (octal_escape d :: o). rewrite <- app_assoc. split; [done|].
      rewrite Htl in Ho.
      remember (drop (length d) (nxt :: rest)) as tl eqn:Etl.
      rewrite Sp. simpl concat.
      apply dec_digits; [done| |done].
      now rewrite <- Sp.
    + rewrite (body_escape _ _ _ _ E E' D). py_simpl.
      destruct (IH (i + 2)%nat
                  (out ++ [[if nxt =? 110 then nl else if nxt =? 114 then cr
                            else if nxt =? 116 then tab else nxt]]))
        as (o & -> & Ho); [lia..|].
      eexists (_ :: o). rewrite <- app_assoc. split; [done|].
      rewrite Er' in Ho. simpl.
      destruct (N.eqb_spec nxt 110) as [->|]; [now apply dec_n|].
      destruct (N.eqb_spec nxt 114) as [->|]; [now apply dec_r|].
      destruct (N.eqb_spec nxt 116) as [->|]; [now apply dec_t|].
      destruct (decide (nxt = bs)) as [->|]; [now apply dec_bs|].
      now apply dec_other.
Qed.

End DecoderLoop.

Section DecoderTop.
Context `{Python}.

Lemma decodes_plain (s : str) : bs ∉ s -> decodes s s.
Proof.
  induction s as [|c s IH]; intros Hs; [apply dec_end|].
  apply not_elem_of_cons in Hs as [Hc Hs]. apply dec_copy; auto.
Qed.

(** The decoder always returns: [None] on [\N] alone, and otherwise a string
    that the rules relate to its argument. *)
Lemma unescape_pg_decodes (s : str) :
  s ≠ [bs; 78] -> ∃ o, unescape_pg s = Ok (Some o) ∧ decodes s o.
Proof.
  intros Hs. unfold unescape_pg. destruct (decide (s = [bs; 78])); [done|].
  destruct (bool_decide (bs ∈ s)) eqn:B; simpl.
  - destruct (while_decodes (length s) s 0 []) as (o & E & D); [lia..|].
    exists (concat o). unfold mbind, py_bind. rewrite E. simpl.
    split; [done|]. now rewrite drop_0 in D.
  - exists s. split; [done|]. apply decodes_plain.
    now apply bool_decide_eq_false in B.
Qed.

Lemma unescape_pg_null : unescape_pg [bs; 78] = Ok None.
Proof. reflexivity. Qed.

Lemma unescape_pg_ok (s : str) : ∃ r, unescape_pg s = Ok r.
Proof.
  destruct (decide (s = [bs; 78])) as [->|Hs].
  - exists None. apply unescape_pg_null.
  - destruct (unescape_pg_decodes s Hs) as (o & E & _). now exists (Some o).
Qed.

Lemma digit_run_head (n : nat) (c : char) (d r l : str) :
  digit_run n l = c :: d -> ∃ l', l = c :: l' ∧ isdigit c = true.
Proof.
  destruct n as [|n], l as [|c' l']; simpl; try done.
  destruct (isdigit c') eqn:D; [|done]. intros [= -> _]. eauto.
Qed.

(** A digit escape cannot be mistaken for another one. *)
Ltac digits_clash :=
  match goal with
  | E : ?d ++ _ = [] |- _ =>
      destruct d; simpl in *; simplify_eq; done
  | E : [] = ?d ++ _ |- _ =>
      destruct d; simpl in *; simplify_eq; done
  | Hrun : digit_run 3 (?d ++ _) = ?d, E : ?d ++ _ = _ :: _ |- _ =>
      destruct d as [|? ?]; [done|]; simpl in E; simplify_eq;
      apply digit_run_head in Hrun as (? & _ & Dg);
      first [congruence | apply isdigit_not_letter in Dg; naive_solver]
  | Hrun : digit_run 3 (?d ++ _) = ?d, E : _ :: _ = ?d ++ _ |- _ =>
      destruct d as [|? ?]; [done|]; simpl in E; simplify_eq;
      apply digit_run_head in Hrun as (? & _ & Dg);
      first [congruence | apply isdigit_not_letter in Dg; naive_solver]
  end.

(** The rules leave no choice: a string has one decoding. *)
Lemma decodes_functional (s o1 o2 : str) :
  decodes s o1 -> decodes s o2 -> o1 = o2.
Proof.
  intros D1. revert o2.
  induction D1 as [|c r o Hc D IH| |r o D IH|r o D IH|r o D IH|r o D IH
                   |d r o Hd Hrun D IH|c r o N1 N2 N3 N4 Hdig D IH];
    intros o2 D2.
  8:{ inversion D2 as [| | | | | | |d2 r2 o2' Hd2 Hrun2 D2' E|]; subst;
        try done; try digits_clash.
      assert (d2 = d) as ->.
      { rewrite <- Hrun2, E. exact Hrun. }
      apply app_inv_head in E as ->. f_equal. now apply IH. }
  all: inversion D2; simplify_eq; try done; try (f_equal; now apply IH);
    digits_clash.
Qed.

Lemma octal_from_is_Some (d : str) (a : N) :
  is_Some (octal_from (Some a) d) ↔ Forall (λ c, is_Some (octal_digit c)) d.
Proof.
  revert a. induction d as [|c d IH]; intros a.
  - split; [constructor|]. simpl. eauto.
  - rewrite octal_from_cons, Forall_cons.
    destruct (octal_digit c) as [v|].
    + rewrite IH. split; [|tauto]. split; [eauto|done].
    + split; [intros []; done|intros [[] _]; done].
Qed.

End DecoderTop.

(** C3. When an iteration of the decoder starts on a backslash that is
    followed by a run [d] of one to three digits (as many as there are, at
    most three), it consumes the backslash and the run and appends one piece
    to the output: the single character whose code point is the base-8 value
    of [d] when every digit of [d] is an octal digit, and otherwise the
    backslash followed by [d] as it stands, as with a digit 8 or 9 (code
    points 56 and 57).  The loop
    then goes on to its end without an exception.  So backslash,1,0,1 decodes
    to the letter A. *)
Theorem unescape_pg_octal `{Python} (s : str) (i : nat) (out : list str)
    (d : str) :
  s !! i = Some bs -> digit_run 3 (drop (S i) s) = d -> d ≠ [] ->
  (1 ≤ length d ≤ 3)%nat
  ∧ body s (length s) i out
    = Ok (Continue (S i + length d)%nat (out ++ [octal_escape d]))
  ∧ (∀ fuel, (length s - i ≤ fuel)%nat ->
       ∃ o, while fuel s (length s) i out = Ok (out ++ octal_escape d :: o))
  ∧ (∀ v, octal_value d = Some v -> octal_escape d = [v] ∧ v < 512)
  ∧ (Forall (λ c, is_Some (octal_digit c)) d ↔ is_Some (octal_value d))
  ∧ ((56 ∈ d ∨ 57 ∈ d ∨ octal_value d = None) -> octal_escape d = bs :: d)
  ∧ unescape_pg (lit "\101") = Ok (Some (lit "A")).
Proof.
  intros E Hd Hne.
  assert (length d ≤ 3)%nat as Hlen
    by (rewrite <- Hd; apply (digit_run_length 3)).
  pose proof (body_digits s i out d E Hd Hne) as Hb.
  split; [|split; [exact Hb|split; [|split; [|split; [|split]]]]].
  - destruct d; [done|]. simpl in *. lia.
  - intros fuel Hf. apply lookup_lt_Some in E as Hi.
    destruct fuel as [|fuel]; [lia|].
    cbn [while]. apply Nat.ltb_lt in Hi as Hi'. rewrite Hi', Hb.
    unfold mbind, py_bind.
    assert (length d ≤ length (drop (S i) s))%nat as Hl
      by (rewrite <- Hd; apply (digit_run_length 3)).
    rewrite length_drop in Hl.
    destruct (while_decodes fuel s (S i + length d) (out ++ [octal_escape d]))
      as (o & -> & _); [lia..|].
    exists o. now rewrite <- app_assoc.
  - intros v Hv. unfold octal_escape. rewrite Hv. split; [done|].
    now apply (octal_value_bound d).
  - symmetry. apply octal_from_is_Some.
  - assert (octal_value d = None -> octal_escape d = bs :: d) as Hn
      by (unfold octal_escape; now intros ->).
    assert (∀ c, c ∈ d -> octal_digit c = None -> octal_value d = None) as Hc.
    { intros c Hin Hc. destruct (octal_value d) eqn:Ev; [|done].
      assert (is_Some (octal_value d)) as Hs by (rewrite Ev; eauto).
      apply octal_from_is_Some in Hs.
      rewrite Forall_forall in Hs. apply Hs in Hin. rewrite Hc in Hin.
      now destruct Hin. }
    intros [H8|[H9|Hv]]; apply Hn; [apply (Hc 56)|apply (Hc 57)|]; done.
  - reflexivity.
Qed.

Lemma unescape_pg_octal_witness :
  @unescape_pg ascii_python (lit "x\1019") = Ok (Some (lit "xA9"))
  ∧ @body ascii_python (lit "x\1019") 6 1 [lit "x"]
    = Ok (Continue 5 [lit "x"; lit "A"]).
Proof.
  split; [reflexivity|].
  refine (proj1 (proj2 (@unescape_pg_octal ascii_python (lit "x\1019") 1
                          [lit "x"] (lit "101") _ _ _))); done.
Defined.

(** C4. [unescape_pg] answers [None] on backslash-N and on nothing else.  On
    every other input it returns, without an exception, the one string that
    the decoding rules build from left to right: every character but the
    backslash is copied; backslash-n, -r, -t give newline, carriage return
    and tab; two backslashes give one; a backslash before any other character
    that is not a digit gives that character; a backslash that ends the input
    is kept.  An input without a backslash is returned as it is. *)
Theorem unescape_pg_rules `{Python} (s : str) :
  (unescape_pg s = Ok None ↔ s = [bs; 78])
  ∧ (s ≠ [bs; 78] ->
       ∃ o, unescape_pg s = Ok (Some o) ∧ decodes s o
            ∧ ∀ o', decodes s o' -> o' = o)
  ∧ (bs ∉ s -> unescape_pg s = Ok (Some s))
  ∧ unescape_pg (lit "a\tb") = Ok (Some [97; tab; 98])
  ∧ unescape_pg (lit "\n\r\\\q") = Ok (Some [nl; cr; bs; 113])
  ∧ unescape_pg (lit "x\") = Ok (Some (lit "x\")).
Proof.
  split; [|split; [|split; [|repeat split]]].
  - split; [|intros ->; reflexivity].
    intros E. destruct (decide (s = [bs; 78])) as [|Hs]; [done|].
    destruct (unescape_pg_decodes s Hs) as (o & E' & _). congruence.
  - intros Hs. destruct (unescape_pg_decodes s Hs) as (o & E & D).
    exists o. split; [done|]. split; [done|].
    intros o' D'. exact (decodes_functional s o' o D' D).
  - intros Hs. unfold unescape_pg.
    destruct (decide (s = [bs; 78])) as [->|_].
    + exfalso. apply Hs. apply elem_of_cons. now left.
    + now rewrite (bool_decide_eq_false_2 _ Hs).
Qed.

Lemma unescape_pg_rules_witness :
  (∃ o, @unescape_pg ascii_python (lit "a\tb\q\") = Ok (Some o)
        ∧ @decodes ascii_python (lit "a\tb\q\") o)
  ∧ @unescape_pg ascii_python (lit "plain") = Ok (Some (lit "plain")).
Proof.
  split.
  - destruct (proj1 (proj2 (@unescape_pg_rules ascii_python (lit "a\tb\q\"))))
      as (o & E & D & _); [done|].
    exists o. split; assumption.
  - apply (proj1 (proj2 (proj2 (@unescape_pg_rules ascii_python
                                   (lit "plain"))))).
    apply (bool_decide_unpack _). reflexivity.
Defined.

(** ** The editor loader *)

Section LoaderFacts.
Context `{Python}.

Lemma first_char_check_ok (line : str) : ∃ b, first_char_check line = Ok b.
Proof. destruct line as [|c r]; simpl; eauto. Qed.

(** The loop body after the first-character test, in one equation. *)
Lemma load_fields_entry (m : gmap Z str) (line : str) :
  load_fields m line
  = Ok (match editor_entry line with
        | Some (eid, name) => <[eid := name]> m
        | None => m
        end).
Proof.
  unfold load_fields, editor_entry.
  destruct (split_tab (rstrip_nl line)) as [|p0 [|p1 rest]]; try done.
  simpl. unfold int_. destruct (parse_int p0) as [eid|]; simpl; [|done].
  destruct (unescape_pg_ok p1) as [r ->]. simpl.
  now destruct r as [[|c r]|].
Qed.

Lemma load_line_fields (m : gmap Z str) (line : str) :
  load_line m line = load_fields m line.
Proof.
  unfold load_line. destruct (first_char_check_ok line) as [b ->].
  now destruct b.
Qed.

Lemma for_each_ext {S A} (f g : S -> A -> py S) (st : S) (l : list A) :
  (∀ s x, f s x = g s x) -> for_each f st l = for_each g st l.
Proof.
  intros E. revert st. induction l as [|x l IH]; intros st; [done|].
  simpl. rewrite E. destruct (g st x); simpl; auto.
Qed.

(** The loader from any mapping on: it does not raise, and each id ends up
    with the name of its last line, or keeps what it had. *)
Lemma load_from (m : gmap Z str) (lines : list str) :
  ∃ m', for_each load_line m lines = Ok m'
        ∧ ∀ eid, m' !! eid
                 = match last_name eid lines with
                   | Some n => Some n
                   | None => m !! eid
                   end.
Proof.
  revert m. induction lines as [|l lines IH]; intros m.
  - exists m. split; [done|]. intros eid. done.
  - simpl. rewrite load_line_fields, load_fields_entry. simpl.
    destruct (IH (match editor_entry l with
                  | Some (eid, name) => <[eid := name]> m
                  | None => m
                  end)) as (m' & -> & Hm').
    exists m'. split; [done|]. intros eid. rewrite Hm'.
    destruct (last_name eid lines); [done|].
    destruct (editor_entry l) as [[e n]|]; [|done].
    destruct (decide (e = eid)) as [->|Hne].
    + apply lookup_insert_eq.
    + now apply lookup_insert_ne.
Qed.

End LoaderFacts.

(** C5. A line of the editor file with fewer than two fields, or whose first
    field is not an integer, leaves the mapping as it is.  Any other line
    stores the decoded second field under the id of the first, the empty
    string standing for a name that decodes to [None] or to nothing.  The
    loader never raises, and the mapping it returns gives each id the name
    of the last line that carries it. *)
Theorem load_editors_spec `{Python} (m : gmap Z str) (line : str)
    (lines : list str) :
  ((length (split_tab (rstrip_nl line)) < 2)%nat -> load_line m line = Ok m)
  ∧ (∀ p0, split_tab (rstrip_nl line) !! 0%nat = Some p0 ->
       parse_int p0 = None -> load_line m line = Ok m)
  ∧ (∀ p0 p1 eid,
       split_tab (rstrip_nl line) !! 0%nat = Some p0 ->
       split_tab (rstrip_nl line) !! 1%nat = Some p1 ->
       parse_int p0 = Some eid ->
       ∃ raw, unescape_pg p1 = Ok raw
              ∧ load_line m line
                = Ok (<[eid := match raw with
                               | Some (c :: r) => c :: r
                               | _ => []
                               end]> m))
  ∧ (∃ editors, load_editors lines = Ok editors
                ∧ ∀ eid, editors !! eid = last_name eid lines).
Proof.
  rewrite load_line_fields, load_fields_entry. unfold editor_entry.
  split; [|split; [|split]].
  - destruct (split_tab (rstrip_nl line)) as [|p0 [|p1 rest]]; simpl;
      [done|done|lia].
  - intros p0 E0 Hp.
    destruct (split_tab (rstrip_nl line)) as [|q0 [|q1 rest]]; try done.
    simpl in E0. injection E0 as ->. now rewrite Hp.
  - intros p0 p1 eid E0 E1 Hp.
    destruct (split_tab (rstrip_nl line)) as [|q0 [|q1 rest]]; try done.
    simpl in E0, E1. injection E0 as ->. injection E1 as ->. rewrite Hp.
    destruct (unescape_pg_ok p1) as [raw ->]. exists raw. split; [done|].
    now destruct raw as [[|c r]|].
  - destruct (load_from ∅ lines) as (editors & E & Hm).
    exists editors. split; [exact E|]. intros eid. rewrite Hm.
    now destruct (last_name eid lines).
Qed.

Lemma load_editors_spec_witness :
  @load_line ascii_python ∅ (lit "7") = Ok ∅
  ∧ @load_line ascii_python ∅ (lit "x7" ++ [tab] ++ lit "Ann" ++ [nl]) = Ok ∅
  ∧ ∃ raw, @unescape_pg ascii_python (lit "\N") = Ok raw
           ∧ @load_line ascii_python ∅ (lit "7" ++ [tab] ++ lit "\N" ++ [nl])
             = Ok (<[7%Z := match raw with
                            | Some (c :: r) => c :: r
                            | _ => []
                            end]> ∅).
Proof.
  split; [|split].
  - apply (@load_editors_spec ascii_python ∅ (lit "7") []). simpl. lia.
  - apply (proj1 (proj2 (@load_editors_spec ascii_python ∅
                           (lit "x7" ++ [tab] ++ lit "Ann" ++ [nl]) []))
             (lit "x7")); reflexivity.
  - apply (proj1 (proj2 (proj2 (@load_editors_spec ascii_python ∅
                           (lit "7" ++ [tab] ++ lit "\N" ++ [nl]) [])))
             (lit "7") (lit "\N") 7%Z); reflexivity.
Defined.

(** C10. The test on the first character of a line does nothing: it cannot
    raise and both its outcomes go on to the same code, so the loader equals
    the loader without it.  What a line contributes is decided by its fields
    alone: it is stored exactly when it has two fields or more and the first
    one is an integer.  Lines that start with [-] or [C] get no special
    treatment: a line for the id -5 is stored. *)
Theorem load_editors_check_noop `{Python} (lines : list str)
    (m : gmap Z str) (line : str) :
  load_editors lines = load_editors_nocheck lines
  ∧ (∃ b, first_char_check line = Ok b)
  ∧ load_line m line = load_fields m line
  ∧ load_line m line
    = Ok (match editor_entry line with
          | Some (eid, name) => <[eid := name]> m
          | None => m
          end)
  ∧ (is_Some (editor_entry line)
     ↔ (2 ≤ length (split_tab (rstrip_nl line)))%nat
       ∧ ∃ p0, split_tab (rstrip_nl line) !! 0%nat = Some p0
               ∧ is_Some (parse_int p0))
  ∧ @load_editors ascii_python
      [lit "-5" ++ [tab] ++ lit "bob" ++ [nl];
       lit "C" ++ [tab] ++ lit "x" ++ [nl];
       lit "C3" ++ [nl]]
    = Ok {[ (-5)%Z := lit "bob" ]}.
Proof.
  split; [|split; [|split; [|split; [|split]]]].
  - apply for_each_ext. intros. apply load_line_fields.
  - apply first_char_check_ok.
  - apply load_line_fields.
  - rewrite load_line_fields. apply load_fields_entry.
  - unfold editor_entry.
    destruct (split_tab (rstrip_nl line)) as [|p0 [|p1 rest]]; simpl.
    + split; [intros []; done|intros [? _]; lia].
    + split; [intros []; done|intros [? _]; lia].
    + destruct (parse_int p0) as [eid|] eqn:Ep.
      * split; [|eauto]. intros _. split; [lia|].
        exists p0. rewrite Ep. eauto.
      * split; [intros []; done|].
        intros (_ & q & [= <-] & Hq). rewrite Ep in Hq. now destruct Hq.
  - reflexivity.
Qed.

(** ** The counters *)

Section CounterFacts.

Lemma od_get_None (d : odict) (k : Z) : od_get d k = None ↔ k ∉ d.*1.
Proof.
  induction d as [|[k' v] d IH]; simpl.
  - split; [intros _; apply not_elem_of_nil|done].
  - rewrite not_elem_of_cons. destruct (decide (k' = k)) as [->|Hne].
    + split; [done|intros [? _]; done].
    + rewrite IH. split; [intros ?; split; [congruence|done]|tauto].
Qed.

Lemma od_get_elem (d : odict) (k v : Z) :
  od_get d k = Some v -> (k, v) ∈ d.
Proof.
  induction d as [|[k' v'] d IH]; simpl; [done|].
  destruct (decide (k' = k)) as [->|Hne].
  - intros [= ->]. apply elem_of_cons. now left.
  - intros E. apply elem_of_cons. right. auto.
Qed.

Lemma od_elem_get (d : odict) (k v : Z) :
  NoDup d.*1 -> (k, v) ∈ d -> od_get d k = Some v.
Proof.
  induction d as [|[k' v'] d IH]; simpl; intros ND Hin.
  - now apply elem_of_nil in Hin.
  - apply NoDup_cons in ND as [Hk ND].
    apply elem_of_cons in Hin as [[= -> ->]|Hin].
    + now rewrite decide_True.
    + destruct (decide (k' = k)) as [->|Hne]; [|auto].
      exfalso. apply Hk. apply list_elem_of_fmap. now exists (k, v).
Qed.

Lemma od_get_set_eq (d : odict) (k v : Z) : od_get (od_set d k v) k = Some v.
Proof.
  induction d as [|[k' v'] d IH]; simpl.
  - now rewrite decide_True.
  - destruct (decide (k' = k)) as [->|Hne]; simpl.
    + now rewrite decide_True.
    + now rewrite decide_False.
Qed.

Lemma od_get_set_ne (d : odict) (k k' v : Z) :
  k' ≠ k -> od_get (od_set d k v) k' = od_get d k'.
Proof.
  intros Hne. induction d as [|[k0 v0] d IH]; simpl.
  - now rewrite decide_False.
  - destruct (decide (k0 = k)) as [->|Hk]; simpl.
    + now rewrite !decide_False by done.
    + destruct (decide (k0 = k')); [done|apply IH].
Qed.

Lemma od_set_set (d : odict) (k v w : Z) :
  od_set (od_set d k v) k w = od_set d k w.
Proof.
  induction d as [|[k' v'] d IH]; simpl.
  - now rewrite decide_True.
  - destruct (decide (k' = k)) as [->|Hne]; simpl.
    + now rewrite decide_True.
    + rewrite decide_False by done. now rewrite IH.
Qed.

Lemma od_set_same (d : odict) (k v w : Z) :
  od_get d k = Some v -> (od_set d k w).*1 = d.*1.
Proof.
  induction d as [|[k' v'] d IH]; csimpl; [done|].
  destruct (decide (k' = k)) as [->|Hne]; csimpl; [done|].
  intros E. now rewrite IH.
Qed.

Lemma od_set_new (d : odict) (k w : Z) :
  od_get d k = None -> (od_set d k w).*1 = d.*1 ++ [k].
Proof.
  induction d as [|[k' v'] d IH]; csimpl; [done|].
  destruct (decide (k' = k)) as [->|Hne]; csimpl; [done|].
  intros E. now rewrite IH.
Qed.

(** [d[k] += 1] stores one more than what [k] had, 0 when it had nothing. *)
Lemma dd_incr_set (d : odict) (k : Z) :
  dd_incr d k = od_set d k (default 0 (od_get d k) + 1)%Z.
Proof.
  unfold dd_incr, dd_getitem. destruct (od_get d k); simpl; [done|].
  apply od_set_set.
Qed.

Lemma dd_incr_get_eq (d : odict) (k : Z) :
  od_get (dd_incr d k) k = Some (default 0 (od_get d k) + 1)%Z.
Proof. rewrite dd_incr_set. apply od_get_set_eq. Qed.

Lemma dd_incr_get_ne (d : odict) (k k' : Z) :
  k' ≠ k -> od_get (dd_incr d k) k' = od_get d k'.
Proof. intros Hne. rewrite dd_incr_set. now apply od_get_set_ne. Qed.

(** A key keeps its place; a new key goes last. *)
Lemma dd_incr_keys (d : odict) (k : Z) :
  (dd_incr d k).*1 = if bool_decide (k ∈ d.*1) then d.*1 else d.*1 ++ [k].
Proof.
  rewrite dd_incr_set. destruct (od_get d k) as [v|] eqn:E.
  - rewrite bool_decide_eq_true_2; [now apply (od_set_same d k v)|].
    apply od_get_elem in E. apply list_elem_of_fmap. now exists (k, v).
  - rewrite bool_decide_eq_false_2; [now apply od_set_new|].
    now apply od_get_None.
Qed.

Lemma dd_incr_NoDup (d : odict) (k : Z) :
  NoDup d.*1 -> NoDup (dd_incr d k).*1.
Proof.
  intros ND. rewrite dd_incr_keys. case_bool_decide as Hk; [done|].
  apply NoDup_app. split; [done|]. split; [|apply NoDup_singleton].
  intros x Hx Hx'. apply list_elem_of_singleton in Hx' as ->. done.
Qed.

End CounterFacts.

(** ** The aggregator *)

Section AggregatorFacts.
Context `{Python}.

(** The loop body in one equation: it never raises. *)
Lemma count_line_step (counts : odict) (line : str) :
  count_line counts line = Ok (count_step counts line).
Proof.
  unfold count_line, count_step, applied_editor.
  destruct (split_tab (rstrip_nl line)) as [|p0 [|p1 [|p2 [|p3 rest]]]];
    try done.
  simpl. destruct (unescape_pg_ok p1) as [r1 ->].
  destruct (unescape_pg_ok p3) as [r3 ->]. simpl.
  destruct r1 as [e|], r3 as [st|]; try done.
  unfold int_. destruct (parse_int st) as [v|]; simpl; [|done].
  destruct (v =? APPLIED_STATUS_CODE)%Z; simpl; [|done].
  now destruct (parse_int e).
Qed.

Lemma applied_editor_iff (line : str) (k : Z) :
  applied_editor line = Some k ↔ is_applied_line line k.
Proof.
  unfold applied_editor, is_applied_line. split.
  - destruct (split_tab (rstrip_nl line)) as [|p0 [|p1 [|p2 [|p3 rest]]]] eqn:Ep;
      try done.
    simpl. destruct (unescape_pg_ok p1) as [r1 E1].
    destruct (unescape_pg_ok p3) as [r3 E3]. rewrite E1, E3.
    destruct r1 as [e|], r3 as [st|]; try done.
    destruct (parse_int st) as [v|] eqn:Ev; [|done].
    destruct (Z.eqb_spec v APPLIED_STATUS_CODE) as [->|]; [|done].
    intros Ek. exists (p0 :: p1 :: p2 :: p3 :: rest), p1, p3, e, st.
    repeat split; try done. simpl. lia.
  - intros (parts & p1 & p3 & e & st & -> & Hl & E1 & E3 & U1 & U3 & Pe & Pst).
    destruct (split_tab (rstrip_nl line)) as [|q0 [|q1 [|q2 [|q3 rest]]]];
      simpl in Hl; try lia.
    simpl in E1, E3. injection E1 as ->. injection E3 as ->.
    simpl. now rewrite U1, U3, Pst.
Qed.

Lemma count_from (counts : odict) (lines : list str) :
  for_each count_line counts lines = Ok (foldl count_step counts lines).
Proof.
  revert counts. induction lines as [|l lines IH]; intros counts; [done|].
  simpl. rewrite count_line_step. simpl. apply IH.
Qed.

Lemma count_step_NoDup (counts : odict) (line : str) :
  NoDup counts.*1 -> NoDup (count_step counts line).*1.
Proof.
  unfold count_step. destruct (applied_editor line); [|done].
  apply dd_incr_NoDup.
Qed.

Lemma count_fold_NoDup (counts : odict) (lines : list str) :
  NoDup counts.*1 -> NoDup (foldl count_step counts lines).*1.
Proof.
  revert counts. induction lines as [|l lines IH]; intros counts ND; [done|].
  simpl. apply IH. now apply count_step_NoDup.
Qed.

(** The keys come in the order in which the editors are first seen. *)
Lemma count_fold_keys (counts : odict) (lines : list str) :
  (foldl count_step counts lines).*1
  = counts.*1 ++ first_seen counts.*1 (omap applied_editor lines).
Proof.
  revert counts. induction lines as [|l lines IH]; intros counts.
  - simpl. now rewrite app_nil_r.
  - simpl. rewrite IH. unfold count_step.
    destruct (applied_editor l) as [k|]; [|done].
    simpl. rewrite dd_incr_keys.
    destruct (bool_decide (k ∈ counts.*1)); [done|].
    now rewrite <- app_assoc.
Qed.

(** Each counter holds the number of applied edits of its editor. *)
Lemma count_fold_get (counts : odict) (lines : list str) (k : Z) :
  od_get (foldl count_step counts lines) k
  = if (applied_count k lines =? 0)%Z then od_get counts k
    else Some (default 0 (od_get counts k) + applied_count k lines)%Z.
Proof.
  unfold applied_count.
  revert counts. induction lines as [|l lines IH]; intros counts; [done|].
  simpl. rewrite IH. rewrite filter_cons. unfold count_step.
  destruct (applied_editor l) as [k'|] eqn:El.
  - destruct (decide (k' = k)) as [->|Hne].
    + rewrite decide_True by done. rewrite dd_incr_get_eq.
      cbn [length default].
      generalize (length (filter (λ l0, applied_editor l0 = Some k) lines)).
      intros n.
      destruct (Z.eqb_spec (Z.of_nat n) 0);
        destruct (Z.eqb_spec (Z.of_nat (S n)) 0); try lia.
      all: unfold id; apply f_equal; lia.
    + rewrite decide_False by congruence.
      now rewrite dd_incr_get_ne by done.
  - now rewrite decide_False by congruence.
Qed.


End AggregatorFacts.

(** ** The ranker *)

Section RankerFacts.

Lemma insert_row_perm (x : row) (l : list row) : insert_row x l ≡ₚ x :: l.
Proof.
  induction l as [|y l IH]; simpl; [done|].
  destruct (row_count x <? row_count y)%Z; [|done].
  rewrite IH. apply Permutation_swap.
Qed.

Lemma sort_rows_perm (l : list row) : sort_rows l ≡ₚ l.
Proof.
  induction l as [|x l IH]; simpl; [done|].
  now rewrite insert_row_perm, IH.
Qed.

Lemma insert_row_sorted (x : row) (l : list row) :
  StronglySorted by_count_desc l -> StronglySorted by_count_desc (insert_row x l).
Proof.
  induction l as [|y l IH]; simpl; intros Hs.
  - constructor; [constructor|constructor].
  - apply StronglySorted_inv in Hs as [Hs Hy].
    destruct (Z.ltb_spec (row_count x) (row_count y)) as [Hlt|Hge].
    + constructor; [now apply IH|].
      rewrite insert_row_perm. constructor; [unfold by_count_desc; lia|done].
    + constructor; [now constructor|].
      constructor; [done|].
      eapply Forall_impl; [exact Hy|]. unfold by_count_desc. intros z; lia.
Qed.

Lemma sort_rows_sorted (l : list row) :
  StronglySorted by_count_desc (sort_rows l).
Proof.
  induction l as [|x l IH]; simpl; [constructor|].
  now apply insert_row_sorted.
Qed.

(** A row never overtakes a row of the same count. *)
Lemma insert_row_stable (c : Z) (x : row) (l : list row) :
  filter (λ r, row_count r = c) (insert_row x l)
  = filter (λ r, row_count r = c) (x :: l).
Proof.
  induction l as [|y l IH]; simpl; [done|].
  destruct (Z.ltb_spec (row_count x) (row_count y)) as [Hlt|Hge]; [|done].
  rewrite (filter_cons _ y), IH, !filter_cons.
  destruct (decide (row_count y = c)), (decide (row_count x = c)); try done.
  lia.
Qed.

Lemma sort_rows_stable (c : Z) (l : list row) :
  filter (λ r, row_count r = c) (sort_rows l)
  = filter (λ r, row_count r = c) l.
Proof.
  induction l as [|x l IH]; simpl; [done|].
  now rewrite insert_row_stable, !filter_cons, IH.
Qed.

Lemma rows_of_ids (editors : gmap Z str) (counts : odict) :
  row_id <$> rows_of editors counts = counts.*1.
Proof.
  unfold rows_of. rewrite <- list_fmap_compose.
  apply list_fmap_ext. now intros i [eid cnt] _.
Qed.

Lemma rows_of_elem (editors : gmap Z str) (counts : odict) (r : row) :
  r ∈ rows_of editors counts
  ↔ ∃ eid cnt, (eid, cnt) ∈ counts
               ∧ r = (eid, default (placeholder eid) (editors !! eid), cnt).
Proof.
  unfold rows_of. rewrite list_elem_of_fmap. split.
  - intros ([eid cnt] & -> & Hin). eauto.
  - intros (eid & cnt & Hin & ->). now exists (eid, cnt).
Qed.

Lemma enumerate_snd {A} (start : Z) (l : list A) : (enumerate start l).*2 = l.
Proof.
  revert start. induction l as [|x l IH]; intros start; csimpl; [done|].
  now rewrite IH.
Qed.

Lemma enumerate_fst {A} (n : nat) (l : list A) :
  (enumerate (Z.of_nat n) l).*1 = Z.of_nat <$> seq n (length l).
Proof.
  revert n. induction l as [|x l IH]; intros n; csimpl; [done|].
  replace (Z.of_nat n + 1)%Z with (Z.of_nat (S n)) by lia. now rewrite IH.
Qed.


End RankerFacts.

(** C2. A line of the edit file that has four fields or more, whose second
    and fourth fields decode to strings that are integers, the fourth being
    2, adds exactly one to the counter of the editor of the second field and
    touches no other counter.  Any other line leaves the counters as they
    are.  In both cases nothing is raised. *)
Theorem count_line_spec `{Python} (counts : odict) (line : str) :
  (∀ k, is_applied_line line k ->
     count_line counts line = Ok (dd_incr counts k)
     ∧ od_get (dd_incr counts k) k = Some (default 0 (od_get counts k) + 1)%Z
     ∧ (∀ k', k' ≠ k -> od_get (dd_incr counts k) k' = od_get counts k')
     ∧ (dd_incr counts k).*1
       = if bool_decide (k ∈ counts.*1) then counts.*1 else counts.*1 ++ [k])
  ∧ ((¬ ∃ k, is_applied_line line k) -> count_line counts line = Ok counts)
  ∧ ((length (split_tab (rstrip_nl line)) < 4)%nat ->
       count_line counts line = Ok counts)
  ∧ (∀ p, (split_tab (rstrip_nl line) !! 1%nat = Some p
           ∨ split_tab (rstrip_nl line) !! 3%nat = Some p) ->
          unescape_pg p = Ok None -> count_line counts line = Ok counts)
  ∧ (∀ p3 st, split_tab (rstrip_nl line) !! 3%nat = Some p3 ->
              unescape_pg p3 = Ok (Some st) ->
              (parse_int st = None ∨ ∃ v, parse_int st = Some v ∧ v ≠ 2%Z) ->
              count_line counts line = Ok counts)
  ∧ (∀ p1 e, split_tab (rstrip_nl line) !! 1%nat = Some p1 ->
             unescape_pg p1 = Ok (Some e) -> parse_int e = None ->
             count_line counts line = Ok counts).
Proof.
  rewrite count_line_step. unfold count_step.
  assert ((¬ ∃ k, is_applied_line line k) ->
          Ok (match applied_editor line with
              | Some k => dd_incr counts k
              | None => counts
              end) = Ok counts) as Hnot.
  { intros Hn. destruct (applied_editor line) as [k|] eqn:E; [|done].
    exfalso. apply Hn. exists k. now apply applied_editor_iff. }
  split; [|split; [exact Hnot|split; [|split; [|split]]]].
  - intros k Hk. apply applied_editor_iff in Hk as ->.
    split; [done|]. split; [apply dd_incr_get_eq|].
    split; [intros k'; apply dd_incr_get_ne|apply dd_incr_keys].
  - intros Hl. apply Hnot.
    intros (k & parts & ? & ? & ? & ? & -> & Hl' & _). lia.
  - intros p Hp Hu. apply Hnot.
    intros (k & parts & p1 & p3 & e & st & -> & _ & E1 & E3 & U1 & U3 & _).
    destruct Hp as [Hp|Hp]; congruence.
  - intros p3 st E3 U3 Hst. apply Hnot.
    intros (k & parts & q1 & q3 & e & st' & -> & _ & _ & E3' & _ & U3' & _ & P).
    assert (st' = st) as -> by congruence.
    destruct Hst as [Hst|(v & Hv & Hne)]; congruence.
  - intros p1 e E1 U1 Pe. apply Hnot.
    intros (k & parts & q1 & q3 & e' & st' & -> & _ & E1' & _ & U1' & _ & P & _).
    congruence.
Qed.

Lemma count_line_spec_witness :
  @count_line ascii_python [(7, 3)%Z]
    (lit "1" ++ [tab] ++ lit "7" ++ [tab] ++ lit "0" ++ [tab] ++ lit "2" ++ [nl])
  = Ok [(7, 4)%Z]
  ∧ @count_line ascii_python [(7, 3)%Z] (lit "1" ++ [tab] ++ lit "7") = Ok [(7, 3)%Z].
Proof.
  split.
  - refine (proj1 (proj1 (@count_line_spec ascii_python [(7, 3)%Z] _) 7%Z _)).
    exists [lit "1"; lit "7"; lit "0"; lit "2"], (lit "7"), (lit "2"),
      (lit "7"), (lit "2").
    repeat split; first [reflexivity | simpl; lia].
  - refine (proj1 (proj2 (proj2 (@count_line_spec ascii_python [(7, 3)%Z] _))) _).
    simpl. lia.
Defined.


Section RankerOrder.

Lemma rows_of_filter_sub (editors : gmap Z str) (counts l : odict) (c : Z) :
  (∀ k v, (k, v) ∈ l -> od_get counts k = Some v) ->
  row_id <$> filter (λ r, row_count r = c) (rows_of editors l)
  = filter (λ k, od_get counts k = Some c) l.*1.
Proof.
  unfold rows_of. induction l as [|[k v] l IH]; intros Hl; [done|].
  csimpl. rewrite !filter_cons.
  assert (od_get counts k = Some v) as Ek
    by (apply Hl, elem_of_cons; now left).
  assert (∀ k' v', (k', v') ∈ l -> od_get counts k' = Some v') as Hl'
    by (intros k' v' Hin; apply Hl, elem_of_cons; now right).
  unfold row_count at 1. simpl.
  destruct (decide (v = c)) as [->|Hne],
    (decide (od_get counts k = Some c)) as [Ec|Ec]; try congruence.
  - csimpl. f_equal. now apply IH.
  - now apply IH.
Qed.

(** Among the rows of one count, the ids stand as in the count mapping. *)
Lemma rows_of_filter_ids (editors : gmap Z str) (counts : odict) (c : Z) :
  NoDup counts.*1 ->
  row_id <$> filter (λ r, row_count r = c) (rows_of editors counts)
  = filter (λ k, od_get counts k = Some c) counts.*1.
Proof.
  intros ND. apply rows_of_filter_sub. intros k v. now apply od_elem_get.
Qed.

End RankerOrder.

(** C1. The ranker makes one row for each id of the count mapping, carrying
    the count and the name, or [(editor #<id>)] when the id has no name.  The
    rows come out sorted by count, larger first, rows of equal count in the
    order the ids have in the count mapping; only the first 500 are kept, and
    they are ranked 1, 2, ... in that order.  For counts 1:5, 2:9, 3:9, 4:1
    and names 1:A, 2:B, 3:C the rows are those of 2, 3, 1, 4, ranked 1 to 4,
    the last one under the name [(editor #4)]. *)
Theorem ranker_spec (editors : gmap Z str) (counts : odict) :
  NoDup counts.*1 ->
  row_id <$> rows_of editors counts = counts.*1
  ∧ (∀ r, r ∈ rows_of editors counts
          ↔ ∃ eid cnt, (eid, cnt) ∈ counts
              ∧ r = (eid,
                     match editors !! eid with
                     | Some name => name
                     | None => lit "(editor #" ++ str_of_int eid ++ lit ")"
                     end,
                     cnt))
  ∧ sort_rows (rows_of editors counts) ≡ₚ rows_of editors counts
  ∧ StronglySorted by_count_desc (sort_rows (rows_of editors counts))
  ∧ (∀ c, filter (λ r, row_count r = c) (sort_rows (rows_of editors counts))
          = filter (λ r, row_count r = c) (rows_of editors counts))
  ∧ top editors counts = take 500 (sort_rows (rows_of editors counts))
  ∧ length (top editors counts) = (500 `min` length counts)%nat
  ∧ NoDup (row_id <$> top editors counts)
  ∧ (ranked editors counts).*2 = top editors counts
  ∧ (ranked editors counts).*1
    = Z.of_nat <$> seq 1 (length (top editors counts))
  ∧ ranked (list_to_map [(1, lit "A"); (2, lit "B"); (3, lit "C")]%Z)
           [(1, 5); (2, 9); (3, 9); (4, 1)]%Z
    = [(1, (2, lit "B", 9)); (2, (3, lit "C", 9)); (3, (1, lit "A", 5));
       (4, (4, lit "(editor #4)", 1))]%Z.
Proof.
  intros ND.
  split; [apply rows_of_ids|]. split.
  { intros r. rewrite rows_of_elem. unfold placeholder.
    split; intros (eid & cnt & Hin & ->); exists eid, cnt;
      (split; [done|]); now destruct (editors !! eid). }
  split; [apply sort_rows_perm|]. split; [apply sort_rows_sorted|].
  split; [intros c; apply sort_rows_stable|]. split; [done|]. split.
  { unfold top. rewrite length_take.
    rewrite (Permutation_length (sort_rows_perm _)). unfold rows_of.
    now rewrite length_fmap. }
  split.
  { unfold top. rewrite fmap_take.
    eapply sublist_NoDup; [|apply sublist_take].
    rewrite (sort_rows_perm (rows_of editors counts)), rows_of_ids. done. }
  split; [apply enumerate_snd|]. split; [apply (enumerate_fst 1)|].
  vm_compute. reflexivity.
Qed.

Lemma ranker_spec_witness :
  (ranked (list_to_map [(1, lit "A"); (2, lit "B")]%Z)
          [(1, 5); (2, 9)]%Z).*2
  = top (list_to_map [(1, lit "A"); (2, lit "B")]%Z) [(1, 5); (2, 9)]%Z.
Proof.
  destruct (ranker_spec (list_to_map [(1, lit "A"); (2, lit "B")]%Z)
              [(1, 5); (2, 9)]%Z) as (_ & _ & _ & _ & _ & _ & _ & _ & E & _).
  - apply (bool_decide_unpack _). reflexivity.
  - exact E.
Defined.

(** A list in descending order of count is made of its classes of equal
    count, so two such lists with the same classes are the same list. *)
Lemma sorted_classes_eq (l1 l2 : list row) :
  StronglySorted by_count_desc l1 -> StronglySorted by_count_desc l2 ->
  (∀ c, filter (λ r, row_count r = c) l1 = filter (λ r, row_count r = c) l2) ->
  l1 = l2.
Proof.
  revert l2. induction l1 as [|x t1 IH]; intros [|y t2] S1 S2 Hf.
  - done.
  - specialize (Hf (row_count y)). rewrite filter_nil, filter_cons in Hf.
    now destruct (decide (row_count y = row_count y)).
  - specialize (Hf (row_count x)). rewrite filter_nil, filter_cons in Hf.
    now destruct (decide (row_count x = row_count x)).
  - apply StronglySorted_inv in S1 as [S1 F1].
    apply StronglySorted_inv in S2 as [S2 F2].
    rewrite Forall_forall in F1, F2. unfold by_count_desc in F1, F2.
    assert (row_count x ≤ row_count y)%Z as Hxy.
    { assert (x ∈ y :: t2) as Hin.
      { eapply (list_elem_of_filter (λ r, row_count r = row_count x)).
        rewrite <- Hf. apply list_elem_of_filter. split; [done|left]. }
      apply elem_of_cons in Hin as [->|Hin]; [lia|].
      now apply F2. }
    assert (row_count y ≤ row_count x)%Z as Hyx.
    { assert (y ∈ x :: t1) as Hin.
      { eapply (list_elem_of_filter (λ r, row_count r = row_count y)).
        rewrite Hf. apply list_elem_of_filter. split; [done|left]. }
      apply elem_of_cons in Hin as [->|Hin]; [lia|].
      now apply F1. }
    assert (row_count x = row_count y) as Hc by lia.
    pose proof (Hf (row_count x)) as H0. rewrite !filter_cons in H0.
    destruct (decide (row_count x = row_count x)); [|done].
    destruct (decide (row_count y = row_count x)); [|congruence].
    injection H0 as -> H0. f_equal. apply IH; [done|done|].
    intros c. destruct (decide (c = row_count y)) as [->|Hne]; [done|].
    specialize (Hf c). rewrite !filter_cons in Hf.
    destruct (decide (row_count y = c)); [congruence|done].
Qed.

Lemma sort_rows_stable_sort (rows : list row) :
  stable_sort_of rows (sort_rows rows).
Proof.
  split; [apply sort_rows_sorted|]. intros c. apply sort_rows_stable.
Qed.

(** Every sort that keeps the promise returns what [sort_rows] returns. *)
Lemma stable_sort_unique (rows result : list row) :
  stable_sort_of rows result -> result = sort_rows rows.
Proof.
  intros [Hs Hf]. apply sorted_classes_eq; [done|apply sort_rows_sorted|].
  intros c. now rewrite Hf, sort_rows_stable.
Qed.

(** The run of [main] as embedded is one of the runs. *)
Lemma main_core_run `{Python} (editor_lines edit_lines : list str) :
  core_run editor_lines edit_lines (main editor_lines edit_lines).
Proof.
  destruct (load_from ∅ editor_lines) as (editors & El & _).
  pose proof (count_from [] edit_lines) as Ec.
  exists editors, (foldl count_step [] edit_lines),
    (sort_rows (rows_of editors (foldl count_step [] edit_lines))).
  fold (load_editors editor_lines) in El.
  fold (count_applied_edits edit_lines) in Ec.
  split; [done|]. split; [done|]. split; [apply sort_rows_stable_sort|].
  unfold main, main_text. now rewrite El, Ec.
Qed.

Lemma core_run_main `{Python} (editor_lines edit_lines : list str)
    (written : py (list N)) :
  core_run editor_lines edit_lines written ->
  written = main editor_lines edit_lines.
Proof.
  intros (editors & counts & rows & El & Ec & Hs & ->).
  apply stable_sort_unique in Hs as ->.
  unfold main, main_text. now rewrite El, Ec.
Qed.

(** C8. Two runs of the core on the same pair of line sequences write the
    same bytes, whatever stable sort each of them uses: the bytes are those
    the embedded [main] computes.  Neither the loader nor the aggregator
    raises; the keys of the counters stand in the order in which the
    aggregator first saw them in the edit file; the promise of the sort
    leaves one ranking only, and in it rows of equal count stand in that
    first-seen order, so both runs break every tie the same way. *)
Theorem main_deterministic `{Python} (editor_lines edit_lines : list str)
    (written1 written2 : py (list N)) :
  core_run editor_lines edit_lines written1 ->
  core_run editor_lines edit_lines written2 ->
  written1 = written2
  ∧ written1 = main editor_lines edit_lines
  ∧ ∃ editors counts,
      load_editors editor_lines = Ok editors
      ∧ count_applied_edits edit_lines = Ok counts
      ∧ main_text editor_lines edit_lines
        = Ok (write_csv (top editors counts))
      ∧ main editor_lines edit_lines
        = utf8_encode (write_csv (top editors counts))
      ∧ counts.*1 = first_seen [] (omap applied_editor edit_lines)
      ∧ ∀ rows, stable_sort_of (rows_of editors counts) rows ->
          rows = sort_rows (rows_of editors counts)
          ∧ ∀ c, row_id <$> filter (λ r, row_count r = c) rows
                 = filter (λ k, od_get counts k = Some c)
                          (first_seen [] (omap applied_editor edit_lines)).
Proof.
  intros R1 R2.
  apply core_run_main in R1 as ->. apply core_run_main in R2 as ->.
  split; [done|]. split; [done|].
  destruct (load_from ∅ editor_lines) as (editors & El & _).
  pose proof (count_from [] edit_lines) as Ec.
  set (counts := foldl count_step [] edit_lines) in *.
  assert (NoDup counts.*1) as ND by (apply count_fold_NoDup; constructor).
  assert (counts.*1 = first_seen [] (omap applied_editor edit_lines)) as Hk
    by apply (count_fold_keys [] edit_lines).
  exists editors, counts.
  fold (load_editors editor_lines) in El.
  fold (count_applied_edits edit_lines) in Ec.
  split; [done|]. split; [done|].
  assert (main_text editor_lines edit_lines
          = Ok (write_csv (top editors counts))) as Et
    by (unfold main_text; now rewrite El, Ec).
  split; [done|]. split; [unfold main; now rewrite Et|]. split; [done|].
  intros rows Hs. split; [now apply stable_sort_unique|].
  intros c. destruct Hs as [_ ->]. rewrite <- Hk.
  now apply rows_of_filter_ids.
Qed.

(** Editors 8, 7, 9 and 7 again apply one edit each, and only 7 and 9 have
    a name: 7 leads with two edits, and of 8 and 9, one edit each, 8 stands
    first because the edit file names it first.  A run that sorts by hand
    writes what [main] writes. *)
Lemma main_deterministic_witness :
  @main ascii_python
    [lit "7" ++ [tab] ++ lit "Ann"; lit "9" ++ [tab] ++ lit "Cy"]
    [lit "1" ++ [tab] ++ lit "8" ++ [tab] ++ lit "0" ++ [tab] ++ lit "2";
     lit "2" ++ [tab] ++ lit "7" ++ [tab] ++ lit "0" ++ [tab] ++ lit "2";
     lit "3" ++ [tab] ++ lit "9" ++ [tab] ++ lit "0" ++ [tab] ++ lit "2";
     lit "4" ++ [tab] ++ lit "7" ++ [tab] ++ lit "0" ++ [tab] ++ lit "2"]
  = utf8_encode
      (write_csv
         (take 500 [(7%Z, lit "Ann", 2%Z);
                    (8%Z, lit "(editor #8)", 1%Z);
                    (9%Z, lit "Cy", 1%Z)])).
Proof.
  refine (proj1 (@main_deterministic ascii_python _ _ _ _ _ _)).
  - apply main_core_run.
  - exists {[7%Z := lit "Ann"; 9%Z := lit "Cy"]},
      [(8%Z, 1%Z); (7%Z, 2%Z); (9%Z, 1%Z)],
      [(7%Z, lit "Ann", 2%Z); (8%Z, lit "(editor #8)", 1%Z);
       (9%Z, lit "Cy", 1%Z)].
    split; [vm_compute; reflexivity|]. split; [vm_compute; reflexivity|].
    split; [|reflexivity]. split.
    + repeat constructor; unfold by_count_desc; simpl; lia.
    + intros c. unfold rows_of. csimpl. rewrite !filter_cons, !filter_nil.
      unfold row_count. simpl.
      destruct (decide (2 = c)%Z), (decide (1 = c)%Z); try done; lia.
Defined.

(** ** The CSV writer *)

Section WriterFacts.

Lemma double_quotes_elem (ch : char) (name : str) :
  ch ∈ double_quotes name ↔ ch ∈ name.
Proof.
  unfold double_quotes. induction name as [|c name IH]; simpl; [done|].
  rewrite elem_of_app, IH, elem_of_cons.
  destruct (N.eqb_spec c dquote) as [->|Hne].
  - rewrite !elem_of_cons. split; [|tauto].
    intros [[?|[?|Hn]]|?]; auto. now apply elem_of_nil in Hn.
  - rewrite list_elem_of_singleton. tauto.
Qed.

Lemma double_quotes_id (name : str) :
  dquote ∉ name -> double_quotes name = name.
Proof.
  unfold double_quotes. induction name as [|c name IH]; simpl; [done|].
  intros Hn. apply not_elem_of_cons in Hn as [Hc Hn].
  destruct (N.eqb_spec c dquote) as [->|_]; [done|].
  simpl. now rewrite IH.
Qed.

Lemma needs_quotes_iff (name : str) :
  needs_quotes name = true
  ↔ comma ∈ name ∨ dquote ∈ name ∨ nl ∈ name ∨ cr ∈ name.
Proof.
  unfold needs_quotes. induction name as [|c name IH]; simpl.
  - split; [done|]. intros [H|[H|[H|H]]]; now apply elem_of_nil in H.
  - rewrite orb_true_iff, IH, !orb_true_iff, !elem_of_cons, !N.eqb_eq.
    split.
    + intros [[[[->| ->]| ->]| ->]|[?|[?|[?|?]]]]; auto 10.
    + intros [[->|?]|[[->|?]|[[->|?]|[->|?]]]]; auto 10.
Qed.

(** The test the code makes on the doubled name is the test on the name. *)
Lemma any_special_needs_quotes (name : str) :
  existsb (λ ch, bool_decide (ch ∈ double_quotes name)) [comma; nl; cr; dquote]
  = needs_quotes name.
Proof.
  apply eq_true_iff_eq. rewrite needs_quotes_iff. simpl.
  rewrite !orb_true_iff, !bool_decide_eq_true, !double_quotes_elem.
  split; [intros [?|[?|[?|[?|?]]]]; auto; done|].
  intros [?|[?|[?|?]]]; auto 10.
Qed.

Lemma write_row_line (f : str) (i : Z) (r : row) :
  write_row f (i, r) = f ++ csv_line i r.
Proof.
  destruct r as [[eid name] cnt].
  unfold write_row, csv_line, csv_field, row_id, row_name, row_count.
  cbn [fst snd].
  change (replace_char dquote [dquote; dquote] (or_str (Some name) []))
    with (double_quotes (or_str (Some name) [])).
  assert (or_str (Some name) [] = name) as -> by now destruct name.
  rewrite any_special_needs_quotes. simpl.
  destruct (needs_quotes name) eqn:E; [done|].
  rewrite double_quotes_id; [done|].
  intros Hq. assert (needs_quotes name = true) as E'
    by (apply needs_quotes_iff; auto).
  congruence.
Qed.

Lemma write_rows_from (f : str) (start : Z) (rows : list row) :
  foldl write_row f (enumerate start rows)
  = f ++ concat (imap (λ i r, csv_line (Z.of_nat i + start) r) rows).
Proof.
  revert f start. induction rows as [|r rows IH]; intros f start.
  - simpl. now rewrite app_nil_r.
  - cbn [enumerate foldl]. rewrite write_row_line, IH, <- app_assoc.
    rewrite imap_cons. cbn [concat]. do 3 f_equal.
    apply imap_ext. intros i x _. simpl. f_equal. lia.
Qed.

End WriterFacts.

(** C6. The file written for a list of rows is the header line
    [rank,editor_id,editor_name,applied_edit_count] followed by one line
    [rank,editor_id,name,count] for each row, the ranks counting from 1.  The
    name is put between double quotes, its own double quotes doubled, exactly
    when it holds a comma, a double quote, a newline or a carriage return;
    otherwise it is written as it is. *)
Theorem write_csv_spec (rows : list row) (name : str) :
  write_csv rows = csv_text rows
  ∧ csv_text rows
  = (lit "rank,editor_id,editor_name,applied_edit_count" ++ [nl])
    ++ concat (imap (λ i r,
         str_of_int (Z.of_nat i + 1) ++ [comma] ++ str_of_int (row_id r)
           ++ [comma] ++ csv_field (row_name r) ++ [comma]
           ++ str_of_int (row_count r) ++ [nl]) rows)
  ∧ ((comma ∈ name ∨ dquote ∈ name ∨ nl ∈ name ∨ cr ∈ name) ->
       csv_field name = [dquote] ++ double_quotes name ++ [dquote])
  ∧ (¬ (comma ∈ name ∨ dquote ∈ name ∨ nl ∈ name ∨ cr ∈ name) ->
       csv_field name = name)
  ∧ double_quotes name
    = flat_map (λ c, if c =? dquote then [dquote; dquote] else [c]) name
  ∧ csv_field (lit "Doe, Jane") = [dquote] ++ lit "Doe, Jane" ++ [dquote]
  ∧ csv_field (lit "Jane " ++ [dquote] ++ lit "J" ++ [dquote] ++ lit " Doe")
    = [dquote] ++ lit "Jane " ++ [dquote; dquote] ++ lit "J"
        ++ [dquote; dquote] ++ lit " Doe" ++ [dquote].
Proof.
  split; [apply (write_rows_from csv_header 1)|]. split; [done|].
  split; [|split; [|split; [done|split; reflexivity]]].
  - intros Hs. apply needs_quotes_iff in Hs. unfold csv_field. now rewrite Hs.
  - intros Hs. unfold csv_field.
    destruct (needs_quotes name) eqn:E; [|done].
    apply needs_quotes_iff in E. done.
Qed.

Lemma write_csv_spec_witness :
  csv_field (lit "a,b") = [dquote] ++ double_quotes (lit "a,b") ++ [dquote]
  ∧ csv_field (lit "ab") = lit "ab".
Proof.
  split.
  - apply (proj1 (proj2 (proj2 (write_csv_spec [] (lit "a,b"))))).
    left. apply (bool_decide_unpack _). reflexivity.
  - apply (proj1 (proj2 (proj2 (proj2 (write_csv_spec [] (lit "ab")))))).
    apply (bool_decide_unpack _). reflexivity.
Defined.

(** A file of two rows as it is written; the second name holds a comma and
    a quote. *)
Example write_csv_two_rows :
  write_csv [(7%Z, lit "Ann", 2%Z);
             (8%Z, lit "a," ++ [dquote] ++ lit "b", 1%Z)]
  = lit "rank,editor_id,editor_name,applied_edit_count" ++ [nl]
    ++ lit "1,7,Ann,2" ++ [nl]
    ++ lit "2,8," ++ [dquote] ++ lit "a," ++ [dquote; dquote] ++ lit "b"
    ++ [dquote] ++ lit ",1" ++ [nl].
Proof. vm_compute. reflexivity. Qed.

(** ** The entry point *)

(** C9, as the specification states it, fails: run without a folder, the
    program does exit with code 1, but it writes nothing at all on the error
    stream; the usage message goes to the standard output. *)
Lemma usage_on_stderr_counterexample :
  dunder_main [lit "checkmbeditors.py"] fresh_world
  = Exited 1 {| stdout := usage ++ [nl]; stderr := []; main_calls := [] |}
  ∧ ¬ ∃ w, dunder_main [lit "checkmbeditors.py"] fresh_world = Exited 1 w
           ∧ stderr w ≠ [].
Proof.
  split; [reflexivity|]. intros (w & [= <-] & E). now apply E.
Qed.

(** C9, amended.  Run with no folder argument, the program prints the usage
    message, and a newline, on the standard output, leaves the error stream
    alone, does not call [main], and exits with code 1. *)
Theorem dunder_main_usage (argv : list str) (w : world) :
  (length argv < 2)%nat ->
  ∃ w', dunder_main argv w = Exited 1 w'
        ∧ stdout w' = stdout w ++ usage ++ [nl]
        ∧ stderr w' = stderr w
        ∧ main_calls w' = main_calls w.
Proof.
  intros Hl. unfold dunder_main.
  apply Nat.ltb_lt in Hl as ->. eexists. split; [reflexivity|]. done.
Qed.

Lemma dunder_main_usage_witness :
  ∃ w', dunder_main [lit "checkmbeditors.py"] fresh_world = Exited 1 w'
        ∧ stdout w' = stdout fresh_world ++ usage ++ [nl]
        ∧ stderr w' = stderr fresh_world
        ∧ main_calls w' = main_calls fresh_world.
Proof.
  apply (dunder_main_usage [lit "checkmbeditors.py"] fresh_world).
  simpl. lia.
Defined.

(** * Further properties of the code *)

(** ** The decoder *)

Section DecoderMore.
Context `{Python}.

Lemma octal_escape_length (d : str) :
  (length (octal_escape d) ≤ S (length d))%nat.
Proof. unfold octal_escape. destruct (octal_value d); simpl; lia. Qed.

Lemma decodes_length (s o : str) :
  decodes s o -> (length o ≤ length s)%nat.
Proof.
  induction 1; simpl; try lia.
  rewrite !length_app. pose proof (octal_escape_length d). lia.
Qed.

Lemma decodes_copy_prefix (a b ob : str) :
  bs ∉ a -> decodes b ob -> decodes (a ++ b) (a ++ ob).
Proof.
  induction a as [|c a IH]; intros Ha D; [done|].
  apply not_elem_of_cons in Ha as [Hc Ha]. simpl. apply dec_copy; auto.
Qed.

Lemma decodes_letter_N : decodes [bs; 78] [78].
Proof. apply dec_other; try done. apply dec_end. Qed.

End DecoderMore.

(** X1. What [unescape_pg] returns is never longer than what it is given:
    every escape stands for at most as many characters as it takes. *)
Theorem unescape_pg_no_longer `{Python} (s o : str) :
  unescape_pg s = Ok (Some o) -> (length o ≤ length s)%nat.
Proof.
  intros E. destruct (decide (s = [bs; 78])) as [->|Hs]; [done|].
  destruct (unescape_pg_decodes s Hs) as (o' & E' & D).
  assert (o' = o) as -> by congruence. now apply decodes_length.
Qed.

Lemma unescape_pg_no_longer_witness :
  (length (lit "aA9") ≤ length (lit "a\1019"))%nat.
Proof.
  apply (@unescape_pg_no_longer ascii_python (lit "a\1019") (lit "aA9")).
  reflexivity.
Defined.

(** X2. The null marker is recognised only when it is the whole field.
    After a prefix without backslash, which is copied, the rest is decoded
    by the rules; so a field that ends in backslash-N after such a prefix
    decodes to the prefix followed by the letter N, not to [None]. *)
Theorem unescape_pg_plain_prefix `{Python} (a b ob : str) :
  a ≠ [] -> bs ∉ a -> decodes b ob ->
  unescape_pg (a ++ b) = Ok (Some (a ++ ob))
  ∧ unescape_pg (a ++ [bs; 78]) = Ok (Some (a ++ [78])).
Proof.
  intros Ha Hbs D.
  assert (∀ b' ob', decodes b' ob' ->
            unescape_pg (a ++ b') = Ok (Some (a ++ ob'))) as Hgen.
  { intros b' ob' D'.
    assert (a ++ b' ≠ [bs; 78]) as Hne.
    { destruct a as [|c a]; [done|]. intros [= -> _].
      apply Hbs. apply elem_of_cons. now left. }
    destruct (unescape_pg_decodes _ Hne) as (o & -> & Do).
    do 2 f_equal.
    apply (decodes_functional (a ++ b')); [done|].
    now apply decodes_copy_prefix. }
  split; [now apply Hgen|]. apply Hgen, decodes_letter_N.
Qed.

Lemma unescape_pg_plain_prefix_witness :
  @unescape_pg ascii_python (lit "ab\N") = Ok (Some (lit "abN")).
Proof.
  refine (proj2 (@unescape_pg_plain_prefix ascii_python (lit "ab") [] [] _ _ _)).
  - done.
  - apply (bool_decide_unpack _). reflexivity.
  - apply dec_end.
Defined.

(** ** Lines, the loader and the aggregator *)

Section LinesMore.
Context `{Python}.

Lemma rstrip_nl_newlines (line : str) (n : nat) :
  rstrip_nl (line ++ replicate n nl) = rstrip_nl line.
Proof.
  induction line as [|c line IH]; simpl.
  - induction n as [|n IH]; simpl; [done|]. now rewrite IH.
  - now rewrite IH.
Qed.

Lemma last_name_app (eid : Z) (l1 l2 : list str) :
  last_name eid (l1 ++ l2)
  = match last_name eid l2 with
    | Some n => Some n
    | None => last_name eid l1
    end.
Proof.
  induction l1 as [|l l1 IH]; simpl.
  - now destruct (last_name eid l2).
  - rewrite IH. now destruct (last_name eid l2).
Qed.

Lemma last_name_is_Some (eid : Z) (lines : list str) :
  is_Some (last_name eid lines)
  ↔ ∃ line name, line ∈ lines ∧ editor_entry line = Some (eid, name).
Proof.
  induction lines as [|l lines IH]; simpl.
  - split; [intros []; done|]. intros (? & ? & Hin & _).
    now apply elem_of_nil in Hin.
  - destruct (last_name eid lines) as [n|] eqn:E.
    + split; [|eauto]. intros _.
      destruct (proj1 IH) as (line & name & Hin & He); [eauto|].
      exists line, name. split; [|done]. apply elem_of_cons. now right.
    + split.
      * destruct (editor_entry l) as [[e n]|] eqn:El; [|intros []; done].
        destruct (decide (e = eid)) as [->|]; [|intros []; done].
        intros _. exists l, n. split; [|done]. apply elem_of_cons. now left.
      * intros (line & name & Hin & He).
        apply elem_of_cons in Hin as [->|Hin].
        -- rewrite He. rewrite decide_True by done. eauto.
        -- destruct (proj2 IH) as [? ?]; [eauto|done].
Qed.

Lemma applied_count_app (k : Z) (l1 l2 : list str) :
  applied_count k (l1 ++ l2)
  = (applied_count k l1 + applied_count k l2)%Z.
Proof. unfold applied_count. rewrite filter_app, length_app. lia. Qed.

Lemma applied_count_perm (k : Z) (l1 l2 : list str) :
  l1 ≡ₚ l2 -> applied_count k l1 = applied_count k l2.
Proof. unfold applied_count. now intros ->. Qed.

Lemma applied_count_nonneg (k : Z) (l : list str) :
  (0 ≤ applied_count k l)%Z.
Proof. unfold applied_count. lia. Qed.

(** What the aggregator returns, counter by counter. *)
Lemma count_applied_edits_get (lines : list str) :
  ∃ counts, count_applied_edits lines = Ok counts
            ∧ NoDup counts.*1
            ∧ ∀ k, od_get counts k
                   = if (applied_count k lines =? 0)%Z then None
                     else Some (applied_count k lines).
Proof.
  exists (foldl count_step [] lines).
  split; [apply count_from|].
  split; [apply count_fold_NoDup; constructor|].
  intros k. rewrite count_fold_get. simpl.
  now destruct (applied_count k lines =? 0)%Z.
Qed.

End LinesMore.

(** X3. Newlines at the end of a line do not count: with any number of them
    appended, the loader and the aggregator treat the line as before.  A last
    line without a terminator is therefore read like the others. *)
Theorem line_terminator_ignored `{Python} (line : str) (n : nat)
    (m : gmap Z str) (counts : odict) :
  load_line m (line ++ replicate n nl) = load_line m line
  ∧ count_line counts (line ++ replicate n nl) = count_line counts line.
Proof.
  split.
  - rewrite !load_line_fields. unfold load_fields.
    now rewrite rstrip_nl_newlines.
  - unfold count_line. now rewrite rstrip_nl_newlines.
Qed.

(** X4. Loading two runs of lines one after the other gives the union of the
    two mappings in which the second run wins: an id named in both keeps the
    name from the second. *)
Theorem load_editors_app `{Python} (lines1 lines2 : list str) :
  ∃ m1 m2,
    load_editors lines1 = Ok m1
    ∧ load_editors lines2 = Ok m2
    ∧ load_editors (lines1 ++ lines2) = Ok (m2 ∪ m1).
Proof.
  destruct (load_from ∅ lines1) as (m1 & E1 & H1).
  destruct (load_from ∅ lines2) as (m2 & E2 & H2).
  destruct (load_from ∅ (lines1 ++ lines2)) as (m & E & Hm).
  exists m1, m2. split; [done|]. split; [done|].
  unfold load_editors. rewrite E. f_equal. apply map_eq. intros eid.
  rewrite Hm, last_name_app, lookup_union, H1, H2, !lookup_empty.
  now destruct (last_name eid lines2), (last_name eid lines1).
Qed.

(** X5. The ids the loader knows are exactly those of the lines that carry
    an entry: two fields or more, the first an integer. *)
Theorem load_editors_dom `{Python} (lines : list str) (eid : Z) :
  ∃ editors,
    load_editors lines = Ok editors
    ∧ (is_Some (editors !! eid)
       ↔ ∃ line name, line ∈ lines ∧ editor_entry line = Some (eid, name)).
Proof.
  destruct (load_from ∅ lines) as (m & E & Hm).
  exists m. split; [done|].
  rewrite Hm, lookup_empty, <- last_name_is_Some.
  now destruct (last_name eid lines).
Qed.

Section CountsMore.
Context `{Python}.

Lemma od_total_cons (k v : Z) (d : odict) :
  od_total ((k, v) :: d) = (v + od_total d)%Z.
Proof. reflexivity. Qed.

Lemma od_total_set (d : odict) (k v : Z) :
  od_total (od_set d k v) = (od_total d - default 0 (od_get d k) + v)%Z.
Proof.
  induction d as [|[k' v'] d IH]; cbn [od_set od_get].
  - unfold od_total. simpl. lia.
  - destruct (decide (k' = k)) as [->|Hne]; rewrite !od_total_cons.
    + simpl. lia.
    + rewrite IH. lia.
Qed.

Lemma od_total_incr (d : odict) (k : Z) :
  od_total (dd_incr d k) = (od_total d + 1)%Z.
Proof. rewrite dd_incr_set, od_total_set. lia. Qed.

Lemma od_total_fold (counts : odict) (lines : list str) :
  od_total (foldl count_step counts lines)
  = (od_total counts + Z.of_nat (length (omap applied_editor lines)))%Z.
Proof.
  revert counts. induction lines as [|l lines IH]; intros counts.
  - simpl. lia.
  - cbn [foldl]. rewrite IH. unfold count_step.
    change (omap applied_editor (l :: lines))
      with (match applied_editor l with
            | Some y => y :: omap applied_editor lines
            | None => omap applied_editor lines
            end).
    destruct (applied_editor l); cbn [length];
      rewrite ?Nat2Z.inj_succ, ?od_total_incr; lia.
Qed.

Lemma first_seen_length (seen ids : list Z) :
  (length (first_seen seen ids) ≤ length ids)%nat.
Proof.
  revert seen. induction ids as [|k ids IH]; intros seen; simpl; [lia|].
  destruct (bool_decide (k ∈ seen)); simpl.
  - specialize (IH seen). lia.
  - specialize (IH (seen ++ [k])). lia.
Qed.

Lemma omap_length_le {A B} (f : A -> option B) (l : list A) :
  (length (omap f l) ≤ length l)%nat.
Proof.
  induction l as [|x l IH]; csimpl; [lia|]. destruct (f x); csimpl; lia.
Qed.

Lemma od_same_perm (c c' : odict) :
  NoDup c.*1 -> NoDup c'.*1 -> (∀ k, od_get c k = od_get c' k) -> c ≡ₚ c'.
Proof.
  intros ND ND' Hg. apply NoDup_Permutation.
  - now apply NoDup_fmap_1 in ND.
  - now apply NoDup_fmap_1 in ND'.
  - intros [k v]. split; intros Hin.
    + apply od_get_elem. rewrite <- Hg. now apply od_elem_get.
    + apply od_get_elem. rewrite Hg. now apply od_elem_get.
Qed.

End CountsMore.

(** X6. No applied edit is lost or counted twice: the counters add up to the
    number of lines that are applied edits, and there are no more counters
    than such lines. *)
Theorem counts_total `{Python} (lines : list str) :
  ∃ counts,
    count_applied_edits lines = Ok counts
    ∧ od_total counts = Z.of_nat (length (omap applied_editor lines))
    ∧ (length counts ≤ length (omap applied_editor lines) ≤ length lines)%nat.
Proof.
  exists (foldl count_step [] lines). split; [apply count_from|]. split.
  - rewrite od_total_fold. simpl. lia.
  - split; [|apply omap_length_le].
    rewrite <- (length_fmap fst), count_fold_keys. simpl.
    apply first_seen_length.
Qed.

(** X7. The order of the lines of the edit file has no bearing on the
    counts: the same lines in another order give every editor the same
    counter, so the two mappings hold the same entries; only the order of
    their keys can differ. *)
Theorem counts_permutation `{Python} (lines lines' : list str) :
  lines ≡ₚ lines' ->
  ∃ counts counts',
    count_applied_edits lines = Ok counts
    ∧ count_applied_edits lines' = Ok counts'
    ∧ (∀ k, od_get counts k = od_get counts' k)
    ∧ counts ≡ₚ counts'.
Proof.
  intros Hp.
  destruct (count_applied_edits_get lines) as (c & E & ND & G).
  destruct (count_applied_edits_get lines') as (c' & E' & ND' & G').
  exists c, c'. split; [done|]. split; [done|].
  assert (∀ k, od_get c k = od_get c' k) as Hg
    by (intros k; now rewrite G, G', (applied_count_perm k _ _ Hp)).
  split; [done|]. now apply od_same_perm.
Qed.

(** Applied edits of editors 7, 8, 7 against 8, 7, 7: the counters are
    [7: 2, 8: 1] and [8: 1, 7: 2]. *)
Lemma counts_permutation_witness :
  ∃ counts counts',
    @count_applied_edits ascii_python
      [lit "1" ++ [tab] ++ lit "7" ++ [tab] ++ lit "0" ++ [tab] ++ lit "2";
       lit "2" ++ [tab] ++ lit "8" ++ [tab] ++ lit "0" ++ [tab] ++ lit "2";
       lit "3" ++ [tab] ++ lit "7" ++ [tab] ++ lit "0" ++ [tab] ++ lit "2"]
    = Ok counts
    ∧ @count_applied_edits ascii_python
        [lit "2" ++ [tab] ++ lit "8" ++ [tab] ++ lit "0" ++ [tab] ++ lit "2";
         lit "1" ++ [tab] ++ lit "7" ++ [tab] ++ lit "0" ++ [tab] ++ lit "2";
         lit "3" ++ [tab] ++ lit "7" ++ [tab] ++ lit "0" ++ [tab] ++ lit "2"]
      = Ok counts'
    ∧ (∀ k, od_get counts k = od_get counts' k)
    ∧ counts ≡ₚ counts'.
Proof.
  apply (@counts_permutation ascii_python).
  apply Permutation_swap.
Defined.

(** X8. Counting a file in two parts and adding up gives the count of the
    whole: for every editor the counter over [lines1 ++ lines2] is the sum of
    the counters over [lines1] and over [lines2], a missing counter standing
    for 0. *)
Theorem counts_app `{Python} (lines1 lines2 : list str) (k : Z) :
  ∃ c1 c2 c,
    count_applied_edits lines1 = Ok c1
    ∧ count_applied_edits lines2 = Ok c2
    ∧ count_applied_edits (lines1 ++ lines2) = Ok c
    ∧ default 0%Z (od_get c k)
      = (default 0 (od_get c1 k) + default 0 (od_get c2 k))%Z.
Proof.
  destruct (count_applied_edits_get lines1) as (c1 & E1 & _ & G1).
  destruct (count_applied_edits_get lines2) as (c2 & E2 & _ & G2).
  destruct (count_applied_edits_get (lines1 ++ lines2)) as (c & E & _ & G).
  exists c1, c2, c. split; [done|]. split; [done|]. split; [done|].
  rewrite G, G1, G2, applied_count_app.
  pose proof (applied_count_nonneg k lines1).
  pose proof (applied_count_nonneg k lines2).
  destruct (Z.eqb_spec (applied_count k lines1 + applied_count k lines2) 0),
    (Z.eqb_spec (applied_count k lines1) 0),
    (Z.eqb_spec (applied_count k lines2) 0); simpl; lia.
Qed.

(** ** The ranker and the writer *)

Section RankMore.

Lemma sorted_app_rel {A} (R : A -> A -> Prop) (l1 l2 : list A) (x y : A) :
  StronglySorted R (l1 ++ l2) -> x ∈ l1 -> y ∈ l2 -> R x y.
Proof.
  induction l1 as [|z l1 IH]; simpl; intros Hs Hx Hy.
  - now apply elem_of_nil in Hx.
  - apply StronglySorted_inv in Hs as [Hs Hz].
    apply elem_of_cons in Hx as [->|Hx]; [|now apply IH].
    rewrite Forall_forall in Hz. apply Hz. apply elem_of_app. now right.
Qed.

Lemma rows_of_ext (e1 e2 : gmap Z str) (counts : odict) :
  (∀ k, k ∈ counts.*1 -> e1 !! k = e2 !! k) ->
  rows_of e1 counts = rows_of e2 counts.
Proof.
  intros He. unfold rows_of. apply list_fmap_ext.
  intros i [k v] Hi. rewrite He; [done|].
  apply list_elem_of_fmap. exists (k, v). split; [done|].
  now apply list_elem_of_lookup_2 in Hi.
Qed.

Lemma double_quotes_inj (a b : str) :
  double_quotes a = double_quotes b -> a = b.
Proof.
  unfold double_quotes. revert b.
  induction a as [|c a IH]; intros [|c' b]; simpl.
  - done.
  - destruct (c' =? dquote); done.
  - destruct (c =? dquote); done.
  - destruct (N.eqb_spec c dquote) as [->|Hc],
      (N.eqb_spec c' dquote) as [->|Hc']; simpl.
    + intros [= E]. f_equal. now apply IH.
    + intros [= E _]. congruence.
    + intros [= E _]. congruence.
    + intros [= -> E]. f_equal. now apply IH.
Qed.

Lemma csv_field_quoted (name : str) :
  needs_quotes name = false -> dquote ∉ name.
Proof.
  intros E Hq. assert (needs_quotes name = true) as E'
    by (apply needs_quotes_iff; auto).
  congruence.
Qed.

End RankMore.

(** X9. The cut keeps the largest counts: no row left out of the first 500
    has a larger count than a row kept. *)
Theorem top_keeps_largest (editors : gmap Z str) (counts : odict)
    (r r' : row) :
  r ∈ top editors counts ->
  r' ∈ drop 500 (sort_rows (rows_of editors counts)) ->
  (row_count r' ≤ row_count r)%Z.
Proof.
  intros Hr Hr'.
  pose proof (sort_rows_sorted (rows_of editors counts)) as Hs.
  rewrite <- (take_drop 500 (sort_rows (rows_of editors counts))) in Hs.
  exact (sorted_app_rel by_count_desc _ _ r r' Hs Hr Hr').
Qed.

Lemma top_keeps_largest_witness :
  (row_count (500, placeholder 500, 500) ≤ row_count (3, placeholder 3, 997))%Z.
Proof.
  apply (top_keeps_largest ∅
           ((λ i, (Z.of_nat i, 1000 - Z.of_nat i)%Z) <$> seq 0 501)).
  - apply (bool_decide_unpack _). vm_compute. reflexivity.
  - apply (bool_decide_unpack _). vm_compute. reflexivity.
Defined.

Section TopMore.
Context `{Python}.

Lemma top_small (editors : gmap Z str) (counts : odict) :
  (length counts ≤ 500)%nat ->
  top editors counts = sort_rows (rows_of editors counts).
Proof.
  intros Hl. unfold top. apply take_ge.
  rewrite (Permutation_length (sort_rows_perm _)). unfold rows_of.
  now rewrite length_fmap.
Qed.

Lemma top_elem (editors : gmap Z str) (counts : odict) (r : row) :
  r ∈ top editors counts ->
  ∃ eid cnt, (eid, cnt) ∈ counts
             ∧ r = (eid, default (placeholder eid) (editors !! eid), cnt).
Proof.
  intros Hr. unfold top in Hr. apply elem_of_take in Hr as (i & Hr & _).
  apply list_elem_of_lookup_2 in Hr. rewrite sort_rows_perm in Hr.
  now apply rows_of_elem.
Qed.

Lemma top_NoDup (editors : gmap Z str) (counts : odict) :
  NoDup counts.*1 -> NoDup (row_id <$> top editors counts).
Proof.
  intros ND. unfold top. rewrite fmap_take.
  eapply sublist_NoDup; [|apply sublist_take].
  now rewrite (sort_rows_perm (rows_of editors counts)), rows_of_ids.
Qed.

Lemma top_length (editors : gmap Z str) (counts : odict) :
  (length (top editors counts) ≤ 500)%nat.
Proof. unfold top. rewrite length_take. lia. Qed.

Lemma count_applied_edits_length (lines : list str) (counts : odict) :
  count_applied_edits lines = Ok counts ->
  (length counts ≤ length (omap applied_editor lines))%nat.
Proof.
  unfold count_applied_edits. rewrite count_from. intros [= <-].
  rewrite <- (length_fmap fst), count_fold_keys. simpl.
  apply first_seen_length.
Qed.

End TopMore.

(** X10. With 500 editors or fewer nothing is cut: every id of the count
    mapping has its row in the output. *)
Theorem top_all_when_small (editors : gmap Z str) (counts : odict) :
  (length counts ≤ 500)%nat ->
  top editors counts = sort_rows (rows_of editors counts)
  ∧ row_id <$> top editors counts ≡ₚ counts.*1.
Proof.
  intros Hl. pose proof (top_small editors counts Hl) as E.
  split; [done|]. rewrite E, sort_rows_perm. now rewrite rows_of_ids.
Qed.

Lemma top_all_when_small_witness :
  row_id <$> top ∅ [(4, 1); (9, 6)]%Z ≡ₚ [(4, 1); (9, 6)]%Z.*1.
Proof.
  apply (top_all_when_small ∅ [(4, 1); (9, 6)]%Z). simpl. lia.
Defined.

(** X11. The editor file matters only through the names of editors that have
    applied edits: two editor files that give those editors the same last
    names lead to the same CSV text. *)
Theorem names_only_for_applied `{Python}
    (editor_lines1 editor_lines2 edit_lines : list str) :
  (∀ k, (0 < applied_count k edit_lines)%Z ->
        last_name k editor_lines1 = last_name k editor_lines2) ->
  main_text editor_lines1 edit_lines = main_text editor_lines2 edit_lines.
Proof.
  intros Hn.
  destruct (load_from ∅ editor_lines1) as (e1 & E1 & H1).
  destruct (load_from ∅ editor_lines2) as (e2 & E2 & H2).
  destruct (count_applied_edits_get edit_lines) as (c & Ec & ND & G).
  unfold main_text, load_editors. rewrite E1, E2, Ec. simpl.
  unfold top. rewrite (rows_of_ext e1 e2 c); [done|].
  intros k Hk. rewrite H1, H2, lookup_empty.
  rewrite Hn; [done|].
  destruct (od_get c k) as [v|] eqn:Ev.
  - rewrite G in Ev. pose proof (applied_count_nonneg k edit_lines).
    destruct (Z.eqb_spec (applied_count k edit_lines) 0); [done|lia].
  - apply od_get_None in Ev. done.
Qed.

(** Only editor 7 has an applied edit.  The two editor files name it alike
    and differ in the name of editor 8 and in the order of their lines. *)
Lemma names_only_for_applied_witness :
  @main_text ascii_python
    [lit "7" ++ [tab] ++ lit "Ann"; lit "8" ++ [tab] ++ lit "Bob"]
    [lit "1" ++ [tab] ++ lit "7" ++ [tab] ++ lit "0" ++ [tab] ++ lit "2"]
  = @main_text ascii_python
      [lit "8" ++ [tab] ++ lit "Zed"; lit "7" ++ [tab] ++ lit "Ann"]
      [lit "1" ++ [tab] ++ lit "7" ++ [tab] ++ lit "0" ++ [tab] ++ lit "2"].
Proof.
  apply (@names_only_for_applied ascii_python).
  intros k Hk. destruct (decide (k = 7%Z)) as [->|Hne].
  - vm_compute. reflexivity.
  - exfalso. unfold applied_count in Hk.
    rewrite filter_cons, filter_nil in Hk.
    destruct (decide _) as [E|_] in Hk; [|simpl in Hk; lia].
    vm_compute in E. congruence.
Defined.

(** X12. End to end: the text [main] writes is the CSV of at most 500 rows of
    distinct editors; each row carries the number of applied edits of its
    editor in the edit file, which is at least 1, and the name on the last
    line of the editor file with that id, or the placeholder when there is no
    such line.  When no more than 500 lines are applied edits, every editor
    with an applied edit has a row. *)
Theorem main_text_rows `{Python} (editor_lines edit_lines : list str) :
  ∃ rows,
    main_text editor_lines edit_lines = Ok (write_csv rows)
    ∧ (length rows ≤ 500)%nat
    ∧ NoDup (row_id <$> rows)
    ∧ (∀ r, r ∈ rows ->
         row_count r = applied_count (row_id r) edit_lines
         ∧ (1 ≤ row_count r)%Z
         ∧ row_name r = default (placeholder (row_id r))
                                (last_name (row_id r) editor_lines))
    ∧ ((length (omap applied_editor edit_lines) ≤ 500)%nat ->
       ∀ k, (0 < applied_count k edit_lines)%Z -> k ∈ row_id <$> rows).
Proof.
  destruct (load_from ∅ editor_lines) as (e & Ee & He).
  destruct (count_applied_edits_get edit_lines) as (c & Ec & ND & G).
  exists (top e c). unfold main_text, load_editors. rewrite Ee, Ec.
  split; [done|]. split; [apply top_length|].
  split; [now apply top_NoDup|]. split.
  - intros r Hr. apply top_elem in Hr as (eid & cnt & Hin & ->).
    unfold row_count, row_id, row_name. simpl.
    apply od_elem_get in Hin; [|done]. rewrite G in Hin.
    pose proof (applied_count_nonneg eid edit_lines).
    destruct (Z.eqb_spec (applied_count eid edit_lines) 0); [done|].
    injection Hin as <-. split; [done|]. split; [lia|].
    rewrite He, lookup_empty. unfold placeholder.
    now destruct (last_name eid editor_lines).
  - intros Hsmall k Hk.
    pose proof (count_applied_edits_length edit_lines c Ec) as Hc.
    rewrite top_small by lia. rewrite sort_rows_perm, rows_of_ids.
    destruct (od_get c k) as [v|] eqn:Ev.
    + apply od_get_elem in Ev. apply list_elem_of_fmap. now exists (k, v).
    + rewrite G in Ev.
      destruct (Z.eqb_spec (applied_count k edit_lines) 0); [lia|done].
Qed.

(** X13. When no line of the edit file is an applied edit, in particular
    when the file is empty, the CSV is the header line alone, whatever the
    editor file holds. *)
Theorem main_text_no_applied `{Python} (editor_lines edit_lines : list str) :
  (∀ line, line ∈ edit_lines -> applied_editor line = None) ->
  main_text editor_lines edit_lines = Ok csv_header.
Proof.
  intros Hn.
  destruct (load_from ∅ editor_lines) as (e & Ee & _).
  unfold main_text, load_editors, count_applied_edits.
  rewrite Ee, count_from. simpl.
  assert (foldl count_step [] edit_lines = []) as ->; [|done].
  induction edit_lines as [|l lines IH]; [done|].
  simpl. unfold count_step at 2. rewrite Hn by (apply elem_of_cons; now left).
  apply IH. intros line Hin. apply Hn. apply elem_of_cons. now right.
Qed.

Lemma main_text_no_applied_witness :
  @main_text ascii_python [lit "1" ++ [tab] ++ lit "a"]
    [lit "9" ++ [tab] ++ lit "1" ++ [tab] ++ lit "0" ++ [tab] ++ lit "1"]
  = Ok csv_header.
Proof.
  apply (@main_text_no_applied ascii_python).
  intros line Hin. apply list_elem_of_singleton in Hin as ->. reflexivity.
Defined.

(** X14. Quoting loses nothing: two names that are written the same way in
    the CSV are the same name. *)
Theorem csv_field_injective (a b : str) :
  csv_field a = csv_field b -> a = b.
Proof.
  unfold csv_field.
  destruct (needs_quotes a) eqn:Ea, (needs_quotes b) eqn:Eb; intros E.
  - simpl in E. injection E as E. apply app_inv_tail in E.
    now apply double_quotes_inj.
  - exfalso. apply (csv_field_quoted b Eb). rewrite <- E.
    apply elem_of_cons. now left.
  - exfalso. apply (csv_field_quoted a Ea). rewrite E.
    apply elem_of_cons. now left.
  - done.
Qed.

Lemma csv_field_injective_witness : lit "a,b" = lit "a,b".
Proof. apply (csv_field_injective (lit "a,b") (lit "a,b")). reflexivity. Defined.

(** X15. Ranks go on across a split: the file for [rows ++ more] is the file
    for [rows] followed by the lines of [more], ranked from where [rows]
    stopped. *)
Theorem write_csv_app (rows more : list row) :
  write_csv (rows ++ more)
  = write_csv rows
    ++ concat (imap (λ i r, csv_line (Z.of_nat (length rows + i) + 1) r) more).
Proof.
  unfold write_csv. rewrite !write_rows_from, imap_app, concat_app, app_assoc.
  done.
Qed.

(** ** The bytes written *)

Section BytesMore.
Context `{Python}.

Lemma scalar_small (c : char) : c < 55296 -> scalar c = true.
Proof.
  intros Hc. unfold scalar. apply orb_true_iff. left. now apply N.ltb_lt.
Qed.

Lemma scalar_spec (c : char) :
  scalar c = true ↔ c < 55296 ∨ (57343 < c ∧ c < 1114112).
Proof.
  unfold scalar. now rewrite orb_true_iff, andb_true_iff, !N.ltb_lt.
Qed.

Lemma utf8_char_scalar (c : char) :
  scalar c = true -> ∃ b, utf8_char c = Ok b ∧ Forall (λ x, x < 256) b.
Proof.
  intros Hs. apply scalar_spec in Hs. unfold utf8_char.
  destruct (N.ltb_spec c 128);
    [eexists; split; [done|]; repeat constructor; lia|].
  destruct (N.ltb_spec c 2048).
  { eexists; split; [done|].
    assert (c / 64 < 32) by (apply N.Div0.div_lt_upper_bound; lia).
    pose proof (N.mod_lt c 64). repeat constructor; lia. }
  destruct (N.ltb_spec c 65536).
  { assert ((55296 <=? c) && (c <=? 57343) = false) as ->.
    { apply andb_false_iff.
      destruct Hs as [Hs|Hs]; [left; apply N.leb_gt|right; apply N.leb_gt];
        lia. }
    eexists; split; [done|].
    assert (c / 4096 < 16) by (apply N.Div0.div_lt_upper_bound; lia).
    pose proof (N.mod_lt (c / 64) 64). pose proof (N.mod_lt c 64).
    repeat constructor; lia. }
  destruct (N.ltb_spec c 1114112); [|lia].
  eexists; split; [done|].
  assert (c / 262144 < 5) by (apply N.Div0.div_lt_upper_bound; lia).
  pose proof (N.mod_lt (c / 4096) 64). pose proof (N.mod_lt (c / 64) 64).
  pose proof (N.mod_lt c 64). repeat constructor; lia.
Qed.

Lemma utf8_encode_scalar (s : str) :
  scalar_text s -> ∃ b, utf8_encode s = Ok b ∧ Forall (λ x, x < 256) b.
Proof.
  induction 1 as [|c s Hc Hs (b & Eb & Hb)]; simpl.
  - exists []. split; [done|constructor].
  - destruct (utf8_char_scalar c Hc) as (bc & -> & Hbc). simpl.
    rewrite Eb. simpl. exists (bc ++ b). split; [done|].
    now apply Forall_app.
Qed.

Lemma lit_scalar (s : string) : scalar_text (lit s).
Proof.
  unfold scalar_text, lit. apply Forall_forall. intros c Hc.
  apply list_elem_of_In, in_map_iff in Hc as (a & <- & _).
  apply scalar_small. pose proof (Ascii.N_ascii_bounded a). lia.
Qed.

Lemma str_of_int_scalar (n : Z) : scalar_text (str_of_int n).
Proof. apply lit_scalar. Qed.

Lemma octal_escape_scalar (d : str) :
  (length d ≤ 3)%nat -> scalar_text d -> scalar_text (octal_escape d).
Proof.
  intros Hl Hd. unfold octal_escape.
  destruct (octal_value d) as [v|] eqn:E.
  - constructor; [|constructor]. apply scalar_small.
    apply (octal_value_bound d) in E; [lia|done].
  - constructor; [done|done].
Qed.

Lemma decodes_scalar (s o : str) :
  decodes s o -> scalar_text s -> scalar_text o.
Proof.
  unfold scalar_text.
  induction 1 as [|c r o Hc D IH| |r o D IH|r o D IH|r o D IH|r o D IH
                  |d r o Hd Hrun D IH|c r o N1 N2 N3 N4 Hdig D IH];
    intros Hs; try done.
  - apply Forall_cons in Hs as [? ?]. constructor; auto.
  - apply Forall_cons in Hs as [_ Hs]. apply Forall_cons in Hs as [_ Hs].
    constructor; auto.
  - apply Forall_cons in Hs as [_ Hs]. apply Forall_cons in Hs as [_ Hs].
    constructor; auto.
  - apply Forall_cons in Hs as [_ Hs]. apply Forall_cons in Hs as [_ Hs].
    constructor; auto.
  - apply Forall_cons in Hs as [_ Hs]. apply Forall_cons in Hs as [_ Hs].
    constructor; auto.
  - apply Forall_cons in Hs as [_ Hs]. apply Forall_app in Hs as [Hd' Hr].
    apply Forall_app. split; [|auto].
    apply octal_escape_scalar; [|done].
    rewrite <- Hrun. apply (digit_run_length 3).
  - apply Forall_cons in Hs as [_ Hs]. apply Forall_cons in Hs as [? Hs].
    constructor; auto.
Qed.

Lemma unescape_pg_scalar (s o : str) :
  unescape_pg s = Ok (Some o) -> scalar_text s -> scalar_text o.
Proof.
  intros E Hs. destruct (decide (s = [bs; 78])) as [->|Hne]; [done|].
  destruct (unescape_pg_decodes s Hne) as (o' & E' & D).
  assert (o' = o) as -> by congruence. now apply (decodes_scalar s).
Qed.

Lemma rstrip_nl_scalar (s : str) : scalar_text s -> scalar_text (rstrip_nl s).
Proof.
  unfold scalar_text. induction 1 as [|c s Hc Hs IH]; simpl; [done|].
  destruct (rstrip_nl s) as [|c' r].
  - destruct (c =? nl); [done|]. now constructor.
  - now constructor.
Qed.

Lemma split_tab_scalar (s : str) :
  scalar_text s -> Forall scalar_text (split_tab s).
Proof.
  unfold scalar_text. induction 1 as [|c s Hc Hs IH]; simpl.
  - repeat constructor.
  - destruct (c =? tab); [constructor; [constructor|done]|].
    destruct (split_tab s) as [|f fs]; [repeat constructor; done|].
    apply Forall_cons in IH as [Hf Hfs]. constructor; [|done].
    now constructor.
Qed.

Lemma editor_entry_scalar (line : str) (eid : Z) (name : str) :
  scalar_text line -> editor_entry line = Some (eid, name) ->
  scalar_text name.
Proof.
  intros Hl. unfold editor_entry.
  pose proof (split_tab_scalar _ (rstrip_nl_scalar _ Hl)) as Hp.
  destruct (split_tab (rstrip_nl line)) as [|p0 [|p1 rest]]; try done.
  apply Forall_cons in Hp as [_ Hp]. apply Forall_cons in Hp as [Hp1 _].
  destruct (parse_int p0); [|done].
  destruct (unescape_pg p1) as [[[|c r]|]| |] eqn:E; intros [= _ <-];
    first [by constructor | apply (unescape_pg_scalar p1 _ E Hp1)].
Qed.

Lemma last_name_scalar (eid : Z) (lines : list str) (name : str) :
  Forall scalar_text lines -> last_name eid lines = Some name ->
  scalar_text name.
Proof.
  induction 1 as [|l lines Hl Hls IH]; simpl; [done|].
  destruct (last_name eid lines) as [n|].
  - intros [= <-]. now apply IH.
  - destruct (editor_entry l) as [[e n]|] eqn:El; [|done].
    destruct (decide (e = eid)); [|done]. intros [= <-].
    now apply (editor_entry_scalar l e).
Qed.

Lemma double_quotes_scalar (name : str) :
  scalar_text name -> scalar_text (double_quotes name).
Proof.
  unfold scalar_text, double_quotes.
  induction 1 as [|c s Hc Hs IH]; simpl; [done|].
  apply Forall_app. split; [|done].
  destruct (N.eqb_spec c dquote) as [->|]; repeat constructor; done.
Qed.

Lemma csv_line_scalar (i : Z) (r : row) :
  scalar_text (row_name r) -> scalar_text (csv_line i r).
Proof.
  intros Hn. unfold csv_line, csv_field, scalar_text.
  rewrite !Forall_app. repeat split;
    try apply str_of_int_scalar; try (repeat constructor; done).
  destruct (needs_quotes (row_name r)); [|done].
  rewrite !Forall_app. repeat split; try (repeat constructor; done).
  now apply double_quotes_scalar.
Qed.

Lemma write_csv_scalar (rows : list row) :
  Forall (λ r, scalar_text (row_name r)) rows -> scalar_text (write_csv rows).
Proof.
  intros Hr. unfold write_csv. rewrite write_rows_from.
  unfold scalar_text. apply Forall_app. split.
  - unfold csv_header. apply Forall_app. split; [apply lit_scalar|].
    repeat constructor.
  - apply Forall_concat. apply Forall_forall. intros x Hx.
    apply list_elem_of_lookup in Hx as [i Hi].
    rewrite list_lookup_imap in Hi.
    destruct (rows !! i) as [r|] eqn:Er; [|done]. injection Hi as <-.
    apply csv_line_scalar. rewrite Forall_forall in Hr. apply Hr.
    now apply list_elem_of_lookup_2 in Er.
Qed.

End BytesMore.

(** X16. When the lines of the editor file hold Unicode scalar values only,
    as the lines of a file read with [errors="replace"] do, the whole
    pipeline runs to its end without raising, whatever the edit file holds,
    and what it writes are bytes: the decoder adds only characters below 512
    and everything else written is ASCII, so the UTF-8 encoding of the output
    cannot fail. *)
Theorem main_never_raises `{Python} (editor_lines edit_lines : list str) :
  Forall scalar_text editor_lines ->
  ∃ bytes, main editor_lines edit_lines = Ok bytes
           ∧ Forall (λ b, b < 256) bytes.
Proof.
  intros Hs.
  destruct (load_from ∅ editor_lines) as (e & Ee & He).
  destruct (count_applied_edits_get edit_lines) as (c & Ec & _).
  unfold main, main_text, load_editors. rewrite Ee, Ec. simpl.
  apply utf8_encode_scalar, write_csv_scalar.
  apply Forall_forall. intros r Hr.
  apply top_elem in Hr as (eid & cnt & _ & ->).
  unfold row_name. simpl. rewrite He, lookup_empty.
  destruct (last_name eid editor_lines) as [n|] eqn:En; simpl.
  - now apply (last_name_scalar eid editor_lines).
  - unfold placeholder, scalar_text. rewrite !Forall_app.
    repeat split; [apply lit_scalar|apply str_of_int_scalar|apply lit_scalar].
Qed.

Lemma main_never_raises_witness :
  ∃ bytes, @main ascii_python [lit "7" ++ [tab] ++ lit "Ann\351"]
             [lit "1" ++ [tab] ++ lit "7" ++ [tab] ++ lit "0" ++ [tab] ++ lit "2"]
           = Ok bytes
           ∧ Forall (λ b, b < 256) bytes.
Proof.
  apply (@main_never_raises ascii_python).
  repeat constructor.
Defined.

(** ** Finding and unpacking the archives *)

Section OrderFacts.

Lemma str_ltb_irrefl (a : str) : str_ltb a a = false.
Proof.
  induction a as [|x a IH]; simpl; [done|].
  now rewrite N.ltb_irrefl.
Qed.

(** If [a < c] then any [b] is above [a] or below [c]. *)
Lemma str_ltb_cotrans (a b c : str) :
  str_ltb a c = true -> str_ltb a b = true ∨ str_ltb b c = true.
Proof.
  revert b c. induction a as [|x a IH]; intros [|y b] [|z c]; simpl; auto;
    try done.
  destruct (N.ltb_spec x z), (N.ltb_spec x y), (N.ltb_spec y x),
    (N.ltb_spec y z), (N.ltb_spec z x), (N.ltb_spec z y); auto; try lia;
    try done.
Qed.

Lemma str_ltb_asym (a b : str) : str_ltb a b = true -> str_ltb b a = false.
Proof.
  revert b. induction a as [|x a IH]; intros [|y b]; simpl; try done.
  destruct (N.ltb_spec x y), (N.ltb_spec y x); try done; try lia.
  apply IH.
Qed.

Lemma insert_str_perm (x : str) (l : list str) : insert_str x l ≡ₚ x :: l.
Proof.
  induction l as [|y l IH]; simpl; [done|].
  destruct (str_ltb y x); [|done]. rewrite IH. apply Permutation_swap.
Qed.

Lemma sorted_perm (l : list str) : sorted l ≡ₚ l.
Proof.
  induction l as [|x l IH]; simpl; [done|].
  now rewrite insert_str_perm, IH.
Qed.

(** The head of a sorted list is below all its elements. *)
Lemma sorted_head_least (l : list str) (m : str) (r : list str) :
  sorted l = m :: r -> ∀ m', m' ∈ l -> str_ltb m' m = false.
Proof.
  revert m r. induction l as [|x l IH]; intros m r E m' Hin; [done|].
  simpl in E. destruct (sorted l) as [|y s] eqn:Es.
  - simpl in E. injection E as <- <-.
    assert (l = []) as ->
      by (apply Permutation_nil; now rewrite <- (sorted_perm l), Es).
    apply list_elem_of_singleton in Hin as ->. apply str_ltb_irrefl.
  - specialize (IH y s eq_refl). simpl in E.
    destruct (str_ltb y x) eqn:Hyx.
    + injection E as <- _.
      apply elem_of_cons in Hin as [->|Hin]; [|now apply IH].
      now apply str_ltb_asym.
    + injection E as <- _.
      apply elem_of_cons in Hin as [->|Hin]; [apply str_ltb_irrefl|].
      destruct (str_ltb m' x) eqn:Hm; [|done].
      destruct (str_ltb_cotrans m' y x Hm) as [E|E]; [|congruence].
      rewrite IH in E; done.
Qed.

End OrderFacts.

Section FindTarFacts.
Context `{OS}.

Lemma find_tar_val (base_folder prefix : str) (st : fs) (out : list str) :
  _find_tar base_folder prefix st out
  = Val (head (sorted (glob st (path_join base_folder
                                 (prefix ++ lit "*.tar.bz2")))))
        st out.
Proof.
  unfold _find_tar, mbind, io_bind, ask, mret, io_ret.
  now destruct (sorted _).
Qed.

End FindTarFacts.

(** X17. [_find_tar] changes nothing and prints nothing.  It answers [None]
    exactly when the pattern [<prefix>*.tar.bz2] in the folder matches no
    file; otherwise it answers one of the matches, and no match comes before
    it in the order of strings: with several archives, the first by name is
    taken. *)
Theorem find_tar_least `{OS} (base_folder prefix : str) (st : fs)
    (out : list str) :
  ∃ r,
    _find_tar base_folder prefix st out = Val r st out
    ∧ (r = None
       ↔ glob st (path_join base_folder (prefix ++ lit "*.tar.bz2")) = [])
    ∧ ∀ m, r = Some m ->
        m ∈ glob st (path_join base_folder (prefix ++ lit "*.tar.bz2"))
        ∧ ∀ m', m' ∈ glob st (path_join base_folder
                                (prefix ++ lit "*.tar.bz2")) ->
                str_ltb m' m = false.
Proof.
  rewrite find_tar_val.
  set (ms := glob st (path_join base_folder (prefix ++ lit "*.tar.bz2"))).
  exists (head (sorted ms)). split; [done|]. split.
  - destruct (sorted ms) as [|m r] eqn:E; simpl.
    + split; [intros _|done].
      apply Permutation_nil. now rewrite <- (sorted_perm ms), E.
    + split; [done|]. intros E'. rewrite E' in E. done.
  - intros m Hm. destruct (sorted ms) as [|m0 r] eqn:E; [done|].
    injection Hm as ->. split.
    + rewrite <- (sorted_perm ms), E. apply elem_of_cons. now left.
    + now apply (sorted_head_least ms m r).
Qed.

Section MemberFacts.
Context `{OS}.

Lemma startswith_refl (s : str) : startswith s s = true.
Proof. induction s as [|c s IH]; simpl; [done|]. now rewrite N.eqb_refl. Qed.

Lemma endswith_refl (s : str) : endswith s s = true.
Proof. apply startswith_refl. Qed.

Lemma sd_get_set_eq {V} (d : list (str * V)) (k : str) (v : V) :
  sd_get (sd_set d k v) k = Some v.
Proof.
  induction d as [|[k' v'] d IH]; simpl.
  - now rewrite decide_True.
  - destruct (decide (k' = k)) as [->|Hne]; simpl.
    + now rewrite decide_True.
    + now rewrite decide_False.
Qed.

Lemma sd_get_set_ne {V} (d : list (str * V)) (k k' : str) (v : V) :
  k' ≠ k -> sd_get (sd_set d k v) k' = sd_get d k'.
Proof.
  intros Hne. induction d as [|[k0 v0] d IH]; simpl.
  - now rewrite decide_False.
  - destruct (decide (k0 = k)) as [->|Hk]; simpl.
    + now rewrite !decide_False by done.
    + destruct (decide (k0 = k')); [done|apply IH].
Qed.

Lemma sd_set_elem {V} (d : list (str * V)) (k k' : str) (v v' : V) :
  (k', v') ∈ sd_set d k v -> (k', v') ∈ d ∨ (k' = k ∧ v' = v).
Proof.
  induction d as [|[k0 v0] d IH]; simpl.
  - intros Hin. apply list_elem_of_singleton in Hin as [= -> ->]. auto.
  - destruct (decide (k0 = k)) as [->|Hk]; rewrite !elem_of_cons.
    + intros [[= -> ->]|Hin]; auto.
    + intros [E|Hin]; [auto|]. destruct (IH Hin); auto.
Qed.

Lemma sd_set_keys {V} (d : list (str * V)) (k k' : str) (v : V) :
  k' ∈ d.*1 ∨ k' = k -> k' ∈ (sd_set d k v).*1.
Proof.
  induction d as [|[k0 v0] d IH]; csimpl.
  - intros [Hin| ->]; [now apply elem_of_nil in Hin|].
    apply elem_of_cons. now left.
  - destruct (decide (k0 = k)) as [->|Hk]; csimpl; rewrite !elem_of_cons.
    + intros [[->|Hin]| ->]; auto.
    + intros [[->|Hin]| ->]; auto.
Qed.

Lemma by_name_get (d : list (str * member)) (ms : list member) (k : str) :
  sd_get (foldl by_name_step d ms) k
  = match last (filter (λ m, member_name m = k) ms) with
    | Some m => Some m
    | None => sd_get d k
    end.
Proof.
  revert d. induction ms as [|m ms IH]; intros d; [done|].
  cbn [foldl]. rewrite IH, filter_cons. unfold by_name_step.
  destruct (decide (member_name m = k)) as [<-|Hne].
  - rewrite last_cons, sd_get_set_eq.
    now destruct (last (filter _ ms)).
  - rewrite sd_get_set_ne by done. done.
Qed.

Lemma by_name_elem (d : list (str * member)) (ms : list member)
    (k : str) (v : member) :
  (k, v) ∈ foldl by_name_step d ms ->
  (k, v) ∈ d ∨ (member_name v = k ∧ v ∈ ms).
Proof.
  revert d. induction ms as [|m ms IH]; intros d; [auto|].
  cbn [foldl]. intros Hin. apply IH in Hin as [Hin|[E Hin]].
  - apply sd_set_elem in Hin as [Hin|[-> ->]]; [auto|].
    right. split; [done|]. apply elem_of_cons. now left.
  - right. split; [done|]. apply elem_of_cons. now right.
Qed.

Lemma by_name_keys (d : list (str * member)) (ms : list member) (k : str) :
  k ∈ d.*1 ∨ (∃ m, m ∈ ms ∧ member_name m = k) ->
  k ∈ (foldl by_name_step d ms).*1.
Proof.
  revert d. induction ms as [|m ms IH]; intros d.
  - intros [Hin|(m & Hin & _)]; [done|now apply elem_of_nil in Hin].
  - cbn [foldl]. intros [Hin|(m' & Hin & E)].
    + apply IH. left. apply sd_set_keys. auto.
    + apply elem_of_cons in Hin as [->|Hin].
      * apply IH. left. apply sd_set_keys. auto.
      * apply IH. right. eauto.
Qed.

End MemberFacts.

(** X18. The member [_extract_members] takes for a wanted name always has a
    name that ends with it and is a member of the archive; none is taken
    exactly when no member name ends with the wanted name; and when the
    archive has members of that very name, the last of them is taken, before
    any other whose name only ends with it. *)
Theorem choose_member_spec `{OS} (members : list member) (name : str) :
  (∀ m, choose_member (members_by_name members) name = Some m ->
        m ∈ members ∧ endswith (member_name m) name = true)
  ∧ (choose_member (members_by_name members) name = None
     ↔ ∀ m, m ∈ members -> endswith (member_name m) name = false)
  ∧ (∀ m0, m0 ∈ members -> member_name m0 = name ->
           choose_member (members_by_name members) name
           = last (filter (λ m, member_name m = name) members)).
Proof.
  unfold choose_member, members_by_name.
  pose proof (by_name_get [] members name) as G. simpl in G.
  split; [|split].
  - intros m. rewrite G.
    destruct (last (filter (λ m, member_name m = name) members)) as [l|] eqn:El.
    + intros [= ->]. apply last_Some_elem_of, list_elem_of_filter in El as [E ?].
      split; [done|]. rewrite E. apply endswith_refl.
    + destruct (List.find _ _) as [[k v]|] eqn:Ef; [|done].
      intros [= ->]. apply find_some in Ef as [Hin Hk].
      apply list_elem_of_In, by_name_elem in Hin as [Hin|[E Hin]].
      * now apply elem_of_nil in Hin.
      * split; [done|]. now rewrite E.
  - rewrite G.
    destruct (last (filter (λ m, member_name m = name) members)) as [l|] eqn:El.
    + split; [done|]. intros Hn.
      apply last_Some_elem_of, list_elem_of_filter in El as [E Hin].
      apply Hn in Hin. rewrite E, endswith_refl in Hin. done.
    + destruct (List.find _ _) as [[k v]|] eqn:Ef.
      * split; [done|]. intros Hn. apply find_some in Ef as [Hin Hk].
        apply list_elem_of_In, by_name_elem in Hin as [Hin|[E Hin]];
          [now apply elem_of_nil in Hin|].
        apply Hn in Hin. simpl in Hk. congruence.
      * split; [|done]. intros _ m Hin.
        assert (member_name m ∈ (foldl by_name_step [] members).*1) as Hk
          by (apply by_name_keys; eauto).
        apply list_elem_of_fmap in Hk as ([k v] & E & Hkv). simpl in E.
        subst k. apply list_elem_of_In in Hkv.
        apply (find_none _ _ Ef) in Hkv. done.
  - intros m0 Hin E. rewrite G.
    destruct (last (filter (λ m, member_name m = name) members)) eqn:El;
      [done|].
    apply last_None in El.
    assert (m0 ∈ filter (λ m, member_name m = name) members) as Hf
      by now apply list_elem_of_filter.
    rewrite El in Hf. now apply elem_of_nil in Hf.
Qed.
Section ExtractFacts.
Context `{OS}.

(** A loop whose body prints one line each time it ends well prints one
    line for each element. *)
Lemma io_for_report {A} (l : list A) (body : A -> io unit) (f : A -> str)
    (st st' : fs) (out out' : list str) :
  (∀ x s o s' o', body x s o = Val tt s' o' -> o' = o ++ [f x]) ->
  io_for l body st out = Val tt st' out' -> out' = out ++ (f <$> l).
Proof.
  intros Hb. revert st out. induction l as [|x l IH]; intros st out; simpl.
  - unfold mret, io_ret. intros [= _ <-]. now rewrite app_nil_r.
  - unfold mbind, io_bind. destruct (body x st out) as [[] s o| |] eqn:E;
      [|done|done].
    intros E'. apply IH in E' as ->. apply Hb in E as ->.
    now rewrite <- app_assoc.
Qed.

Lemma io_for_no_exit {A} (l : list A) (body : A -> io unit)
    (st st' : fs) (out out' : list str) (msg : str) :
  (∀ x s o s' o' m, body x s o ≠ Exit m s' o') ->
  io_for l body st out ≠ Exit msg st' out'.
Proof.
  intros Hb. revert st out. induction l as [|x l IH]; intros st out; simpl.
  - done.
  - unfold mbind, io_bind. destruct (body x st out) as [[] s o| |] eqn:E.
    + apply IH.
    + now apply Hb in E.
    + done.
Qed.


Lemma extract_members_run (tar_path target_root : str) (wanted : list str)
    (st : fs) (out : list str) :
  _extract_members tar_path target_root wanted st out
  = let hdr := lit "Extracting from " ++ basename tar_path ++ lit " ..." in
    if printable hdr then
      match makedirs st target_root with
      | None => Crash (out ++ [hdr])
      | Some st0 =>
          match getmembers st0 tar_path with
          | None => Crash (out ++ [hdr])
          | Some members =>
              io_for wanted
                (extract_wanted tar_path target_root
                   (members_by_name members))
                st0 (out ++ [hdr])
          end
      end
    else Crash out.
Proof.
  unfold _extract_members, mbind, io_bind, print_line, change, ask_or_raise.
  cbv zeta. destruct (printable _); [|done].
  destruct (makedirs st target_root) as [st0|]; [|done].
  now destruct (getmembers st0 tar_path).
Qed.

Lemma extract_wanted_line (tar_path target_root : str)
    (by_name : list (str * member)) (name : str)
    (s s' : fs) (o o' : list str) :
  extract_wanted tar_path target_root by_name name s o = Val tt s' o' ->
  o' = o ++ [match choose_member by_name name with
             | Some m => lit "  - " ++ member_name m
             | None => lit "  ! Warning: member " ++ name
                         ++ lit " not found in " ++ tar_path
             end].
Proof.
  unfold extract_wanted, mbind, io_bind, print_line, change.
  destruct (choose_member by_name name) as [m|].
  - destruct (printable _); [|intros E; discriminate E].
    destruct (extract s tar_path m target_root); intros E; [|discriminate E].
    now injection E as _ <-.
  - destruct (printable _); intros E; [|discriminate E].
    now injection E as _ <-.
Qed.

Lemma extract_wanted_no_exit (tar_path target_root : str)
    (by_name : list (str * member)) (name : str)
    (s s' : fs) (o o' : list str) (msg : str) :
  extract_wanted tar_path target_root by_name name s o ≠ Exit msg s' o'.
Proof.
  unfold extract_wanted, mbind, io_bind, print_line, change.
  destruct (choose_member by_name name) as [m|].
  - destruct (printable _); [|intros E; discriminate E].
    destruct (extract s tar_path m target_root); intros E; discriminate E.
  - destruct (printable _); intros E; discriminate E.
Qed.

Lemma extract_members_no_exit (tar_path target_root : str)
    (wanted : list str) (st st' : fs) (out out' : list str) (msg : str) :
  _extract_members tar_path target_root wanted st out ≠ Exit msg st' out'.
Proof.
  rewrite extract_members_run. cbv zeta.
  destruct (printable _); [|intros E; discriminate E].
  destruct (makedirs st target_root) as [st0|]; [|intros E; discriminate E].
  destruct (getmembers st0 tar_path) as [members|];
    [|intros E; discriminate E].
  apply io_for_no_exit. intros. apply extract_wanted_no_exit.
Qed.

End ExtractFacts.

(** X19. [_extract_members] never ends the program by itself.  When it
    returns, it has created the target directory, read the members of the
    archive, and printed the line that names the archive followed by exactly
    one line for each wanted name, in order: the name of the member it
    extracted for it, or the warning that none was found. *)
Theorem extract_members_report `{OS} (tar_path target_root : str)
    (wanted : list str) (st st' : fs) (out out' : list str) :
  (∀ msg, _extract_members tar_path target_root wanted st out
          ≠ Exit msg st' out')
  ∧ (_extract_members tar_path target_root wanted st out = Val tt st' out' ->
     ∃ st0 members,
       makedirs st target_root = Some st0
       ∧ getmembers st0 tar_path = Some members
       ∧ out'
         = out ++ (lit "Extracting from " ++ basename tar_path ++ lit " ...")
             :: ((λ name,
                   match choose_member (members_by_name members) name with
                   | Some m => lit "  - " ++ member_name m
                   | None => lit "  ! Warning: member " ++ name
                               ++ lit " not found in " ++ tar_path
                   end) <$> wanted)).
Proof.
  split; [intros msg; apply extract_members_no_exit|].
  rewrite extract_members_run. cbv zeta.
  destruct (printable _); [|intros E; discriminate E].
  destruct (makedirs st target_root) as [st0|] eqn:Em;
    [|intros E; discriminate E].
  destruct (getmembers st0 tar_path) as [members|] eqn:Eg;
    [|intros E; discriminate E].
  intros E. exists st0, members. split; [done|]. split; [done|].
  eapply io_for_report in E; [rewrite E, <- app_assoc; reflexivity|].
  intros x s o s' o'. apply extract_wanted_line.
Qed.

(** ** [ensure_required_files] and [main] *)

Ltac io_step :=
  match goal with
  | |- context [if negb ?b then _ else _] => destruct b eqn:?; cbn [negb]
  | |- context [if ?b then _ else _] => destruct b eqn:?
  | |- context [match ?x with _ => _ end] => destruct x eqn:?
  end.

(** X20. When [ensure_required_files] returns, the two paths it returns are
    files in the file system as it then is; the edit file is
    [<folder>/mbdump-edit/mbdump/edit] and the editor file is
    [editor_sanitised] or [editor] under [<folder>/mbdump-editor/mbdump]. *)
Theorem ensure_ok `{OS} (folder : str) (st st' : fs) (out out' : list str)
    (ef df : str) :
  ensure_required_files folder st out = Val (ef, df) st' out' ->
  isfile st' ef = true ∧ isfile st' df = true
  ∧ df = edit_path folder
  ∧ (ef = sanitised_path folder ∨ ef = editor_path folder).
Proof.
  unfold ensure_required_files, sanitised_path, editor_path, edit_path,
    mbind, io_bind, ask, mret, io_ret, sys_exit.
  repeat (first [rewrite find_tar_val | io_step]; cbv beta);
    intros E; try discriminate E.
  all: injection E as <- <- <- <-; cbn [negb orb] in *.
  all: repeat match goal with
         | Hx : _ || _ = false |- _ => apply orb_false_iff in Hx as [? ?]
         | Hx : negb _ = false |- _ => apply negb_false_iff in Hx
         end.
  all: try (repeat split; auto; congruence).
  all: repeat match goal with
         | Hx : match ?x with _ => _ end = Val _ _ _ |- _ =>
             destruct x eqn:?; try discriminate Hx
         | Hx : Val _ _ _ = Val _ _ _ |- _ => injection Hx as ? ? ?; subst
         end.
  all: cbn [negb] in *.
  all: try (repeat split; auto; congruence).
  all: match goal with
       | |- context [if negb (isfile ?s ?p) then _ else _] =>
           destruct (isfile s p) eqn:?
       end; cbn [negb] in *; repeat split; auto; congruence.
Qed.

Lemma ensure_ok_witness :
  match @ensure_required_files toy_os (lit "d") toy_packed [] with
  | Val (ef, df) st' _ =>
      @isfile toy_os st' ef = true ∧ @isfile toy_os st' df = true
  | _ => False
  end.
Proof.
  destruct (@ensure_required_files toy_os (lit "d") toy_packed [])
    as [[ef df] st' out'|msg st' out'|out'] eqn:E.
  - destruct (@ensure_ok toy_os _ _ _ _ _ _ _ E) as (E1 & E2 & _).
    split; assumption.
  - vm_compute in E. discriminate E.
  - vm_compute in E. discriminate E.
Defined.

(** X21. When the edit file and one of the two editor files are already in
    place, [ensure_required_files] returns their paths, [editor_sanitised]
    before [editor], and leaves the file system and the printed output as
    they were. *)
Theorem ensure_ready `{OS} (folder : str) (st : fs) (out : list str) :
  isfile st (edit_path folder) = true ->
  isfile st (sanitised_path folder) = true
  ∨ isfile st (editor_path folder) = true ->
  ensure_required_files folder st out
  = Val (if isfile st (sanitised_path folder) then sanitised_path folder
         else editor_path folder,
         edit_path folder) st out.
Proof.
  unfold ensure_required_files, sanitised_path, editor_path, edit_path,
    mbind, io_bind, ask, mret, io_ret, sys_exit.
  intros Hd He.
  destruct (isfile st (path_join _ (lit "editor_sanitised"))) eqn:Es.
  - cbn [negb].
    repeat (first [rewrite Hd | rewrite Es]; cbn [negb orb]; cbv beta).
    reflexivity.
  - destruct He as [He|He]; [done|]. cbn [negb].
    repeat (first [rewrite Hd | rewrite Es | rewrite He];
            cbn [negb orb]; cbv beta).
    reflexivity.
Qed.

Lemma ensure_ready_witness :
  @ensure_required_files toy_os (lit "d") toy_unpacked []
  = @Val toy_os _
      (lit "d/mbdump-editor/mbdump/editor", lit "d/mbdump-edit/mbdump/edit")
      toy_unpacked [].
Proof.
  apply (@ensure_ready toy_os (lit "d")).
  - vm_compute. reflexivity.
  - right. vm_compute. reflexivity.
Defined.

(** X22. With no editor file in place and no archive matching
    [mbdump-editor*.tar.bz2] in the folder, [ensure_required_files] ends the
    program by [sys.exit] with the message that names the file it expected
    and the archive it looked for; it has changed and printed nothing. *)
Theorem ensure_no_archive `{OS} (folder : str) (st : fs) (out : list str) :
  isfile st (sanitised_path folder) = false ->
  isfile st (editor_path folder) = false ->
  glob st (path_join folder (lit "mbdump-editor*.tar.bz2")) = [] ->
  ensure_required_files folder st out
  = Exit (lit "Missing editor file and mbdump-editor.tar.bz2." ++ [nl]
            ++ lit "Expected either:" ++ [nl]
            ++ lit "  " ++ editor_path folder ++ [nl]
            ++ lit "or a tarball like:" ++ [nl]
            ++ lit "  " ++ path_join folder (lit "mbdump-editor.tar.bz2"))
         st out.
Proof.
  unfold ensure_required_files, sanitised_path, editor_path,
    mbind, io_bind, ask, mret, io_ret, sys_exit.
  intros Hs He Hg.
  repeat (first [rewrite Hs | rewrite He | rewrite find_tar_val];
          cbn [negb]; cbv beta).
  change (lit "mbdump-editor" ++ lit "*.tar.bz2")
    with (lit "mbdump-editor*.tar.bz2").
  rewrite Hg. reflexivity.
Qed.

Lemma ensure_no_archive_witness :
  ∃ msg, @ensure_required_files toy_os (lit "d") toy_empty []
         = @Exit toy_os _ msg toy_empty [].
Proof.
  eexists.
  apply (@ensure_no_archive toy_os (lit "d")); vm_compute; reflexivity.
Defined.

Section MainIoFacts.
Context `{OS} `{Python}.



End MainIoFacts.

Section MainIoExit.
Context `{OS} `{Python}.

Lemma print_line_no_exit (s : str) (st st' : fs) (out out' : list str)
    (msg : str) :
  print_line s st out ≠ Exit msg st' out'.
Proof. unfold print_line. destruct (printable s); intros E; discriminate E. Qed.

Lemma main_io_exit (folder : str) (st st' : fs) (out out' : list str)
    (msg : str) :
  main_io folder st out = Exit msg st' out' ->
  ensure_required_files folder st out = Exit msg st' out'.
Proof.
  unfold main_io, mbind, io_bind, ask_or_raise, run_py, change.
  destruct (ensure_required_files folder st out)
    as [[ef df] st1 out1| |] eqn:Ee;
    [|intros E; now injection E as -> -> ->|discriminate].
  repeat match goal with
    | |- context [match print_line ?s ?a ?b with _ => _ end] =>
        let P := fresh "P" in
        destruct (print_line s a b) as [[] ? ?| |] eqn:P;
          [|now apply print_line_no_exit in P|discriminate]
    | |- context [match read_lines ?a ?b with _ => _ end] =>
        destruct (read_lines a b); [|discriminate]
    | |- context [match write_bytes ?a ?b ?c with _ => _ end] =>
        destruct (write_bytes a b c); [|discriminate]
    | |- context [match load_editors ?a with _ => _ end] =>
        destruct (load_editors a); [|discriminate|discriminate]
    | |- context [match count_applied_edits ?a with _ => _ end] =>
        destruct (count_applied_edits a); [|discriminate|discriminate]
    | |- context [match utf8_encode ?a with _ => _ end] =>
        destruct (utf8_encode a); [|discriminate|discriminate]
    end.
  intros E. exfalso. revert E. apply io_for_no_exit.
  intros. apply print_line_no_exit.
Qed.

End MainIoExit.

(** X23. [main] ends by [sys.exit] exactly when [ensure_required_files]
    does, and then with the same message, the same file system and the same
    printed output: it has written no CSV and printed nothing after it, and
    a run of [main] ends by [sys.exit] in no other way. *)
Theorem main_io_exits_with_ensure `{OS} `{Python} (folder : str)
    (st st' : fs) (out out' : list str) (msg : str) :
  main_io folder st out = Exit msg st' out'
  ↔ ensure_required_files folder st out = Exit msg st' out'.
Proof.
  split; [apply main_io_exit|].
  intros E. unfold main_io, mbind, io_bind. now rewrite E.
Qed.


